(** * Animated fire and smoke with 3D Perlin noise: a model of [Main.cpp]

    The development follows the source file top to bottom:
    - the CPU side (helpers, [fade], [lerp], [grad], [Perlin3D], the bake
      loop of [make3DNoiseTex], the key handling of [main]) is modelled over
      rationals with an explicit rounding operator applied after every
      floating-point operation;
    - the GLSL side (the smoke fragment shader and the blend state set by
      [glBlendFunc]) is modelled over the real numbers, because the shader
      calls [sin].

    Number model of the CPU side.  A finite [float] is a rational number.
    Every arithmetic operation of the source computes the exact rational
    result and then applies [rnd], the rounding of the platform.  Two
    instances are used below: [exact] (no rounding) and [round_b32] (IEEE
    binary32, round to nearest, ties to even, exponent range unbounded
    above).  Infinities and NaN are not represented.  An [int] is an integer
    of [Z]; the conversion [(int)floorf(x)] is the mathematical floor, which
    is what C++ defines for |x| < 2^31.  [unsigned] arithmetic wraps modulo
    2^32 and the wrap is written out. *)

From Stdlib Require Import ZArith QArith Qround Qabs Qpower Reals Lia Psatz.
From stdpp Require Import base list.

(** ** Numbers *)

Section Float.

(** The rounding applied to the exact result of a float operation. *)
Variable rnd : Q -> Q.

(** Round an exact result; the argument is put in lowest terms first, so
    that a float value has one representation. *)
Definition fl (q : Q) : Q := rnd (Qred q).

Definition fadd (a b : Q) : Q := fl (a + b)%Q.
Definition fsub (a b : Q) : Q := fl (a - b)%Q.
Definition fmul (a b : Q) : Q := fl (a * b)%Q.
Definition fdiv (a b : Q) : Q := fl (a / b)%Q.
(** Negation only flips the sign bit. *)
Definition fneg (a : Q) : Q := Qred (- a)%Q.
(** [floorf] of a finite float is a float: no rounding. *)
Definition floorf (x : Q) : Q := inject_Z (Qfloor x).
(** [(int)floorf(x)]. *)
Definition int_of_floorf (x : Q) : Z := Qfloor x.
(** Conversion [int -> float]. *)
Definition of_int (n : Z) : Q := fl (inject_Z n).
(** A float literal such as [0.5f]. *)
Definition lit (q : Q) : Q := fl q.
(** [a < b] on floats. *)
Definition fltb (a b : Q) : bool := if Qlt_le_dec a b then true else false.

(** ** tiny helpers *)

(** [clamp01]: v < T(0) ? T(0) : (v > T(1) ? T(1) : v). *)
Definition clamp01 (v : Q) : Q :=
  if fltb v 0 then 0%Q else if fltb 1 v then 1%Q else v.

(** [std::max(a, b)] is [(a < b) ? b : a]; [std::min(a, b)] is
    [(b < a) ? b : a]. *)
Definition std_max (a b : Q) : Q := if fltb a b then b else a.
Definition std_min (a b : Q) : Q := if fltb b a then b else a.

(** ** 3D Perlin noise (CPU) *)

(** t * t * t * (t * (t * 6 - 15) + 10) *)
Definition fade (t : Q) : Q :=
  fmul (fmul (fmul t t) t)
       (fadd (fmul t (fsub (fmul t (of_int 6)) (of_int 15))) (of_int 10)).

(** a + (b - a) * t *)
Definition lerp (a b t : Q) : Q := fadd a (fmul (fsub b a) t).

Definition grad (hash : Z) (x y z : Q) : Q :=
  let h := Z.land hash 15 in
  let u := if (h <? 8)%Z then x else y in
  let v := if (h <? 4)%Z then y
           else if ((h =? 12) || (h =? 14))%Z then x else z in
  fadd (if (Z.land h 1 =? 0)%Z then u else fneg u)
       (if (Z.land h 2 =? 0)%Z then v else fneg v).

(** *** The permutation table *)

(** One step of the generator on [unsigned]:
    s = s * 1664525u + 1013904223u. *)
Definition lcg (s : Z) : Z := ((s * 1664525 + 1013904223) mod 2 ^ 32)%Z.

(** [std::swap(perm[i], perm[j])]. *)
Definition swap (perm : list Z) (i j : nat) : list Z :=
  <[j := perm !!! i]> (<[i := perm !!! j]> perm).

(** The loop [for (int i = 255; i > 0; --i)], entered with index [i]. *)
Fixpoint shuffle (i : nat) (s : Z) (perm : list Z) : list Z :=
  match i with
  | O => perm
  | S i' =>
      let s' := lcg s in
      let j := Z.to_nat (s' mod (Z.of_nat i + 1)) in
      shuffle i' s' (swap perm i j)
  end.

(** perm[i] = i for i in 0..255. *)
Definition identity_perm : list Z := map Z.of_nat (seq 0 256).

(** The constructor: the object is its table [p] of 512 entries,
    p[i] = perm[i & 255]. *)
Definition Perlin3D (seed : Z) : list Z :=
  let perm := shuffle 255 seed identity_perm in
  map (fun i => perm !!! Z.to_nat (Z.land (Z.of_nat i) 255)) (seq 0 512).

Definition default_seed : Z := 1337.

(** p[i] for an [int] index. *)
Definition at_ (p : list Z) (i : Z) : Z := p !!! Z.to_nat i.

(** The table indices that one call of [noise] computes. *)
Record cell := {
  cX : Z; cY : Z; cZ : Z;
  cA : Z; cAA : Z; cAB : Z;
  cB : Z; cBA : Z; cBB : Z
}.

Definition noise_cell (p : list Z) (x y z : Q) : cell :=
  let X := Z.land (int_of_floorf x) 255 in
  let Y := Z.land (int_of_floorf y) 255 in
  let Z_ := Z.land (int_of_floorf z) 255 in
  let A := (at_ p X + Y)%Z in
  let AA := (at_ p A + Z_)%Z in
  let AB := (at_ p (A + 1) + Z_)%Z in
  let B := (at_ p (X + 1) + Y)%Z in
  let BA := (at_ p B + Z_)%Z in
  let BB := (at_ p (B + 1) + Z_)%Z in
  {| cX := X; cY := Y; cZ := Z_;
     cA := A; cAA := AA; cAB := AB; cB := B; cBA := BA; cBB := BB |}.

(** The value [res] interpolated from the eight corners. *)
Definition noise_res (p : list Z) (x y z : Q) : Q :=
  let c := noise_cell p x y z in
  let x := fsub x (floorf x) in
  let y := fsub y (floorf y) in
  let z := fsub z (floorf z) in
  let u := fade x in
  let v := fade y in
  let w := fade z in
  let one := of_int 1 in
  lerp
    (lerp (lerp (grad (at_ p (cAA c)) x y z)
                (grad (at_ p (cBA c)) (fsub x one) y z) u)
          (lerp (grad (at_ p (cAB c)) x (fsub y one) z)
                (grad (at_ p (cBB c)) (fsub x one) (fsub y one) z) u) v)
    (lerp (lerp (grad (at_ p (cAA c + 1)) x y (fsub z one))
                (grad (at_ p (cBA c + 1)) (fsub x one) y (fsub z one)) u)
          (lerp (grad (at_ p (cAB c + 1)) x (fsub y one) (fsub z one))
                (grad (at_ p (cBB c + 1)) (fsub x one) (fsub y one)
                      (fsub z one)) u) v)
    w.

(** bring to [0,1]: 0.5f * (res + 1.0f) *)
Definition noise (p : list Z) (x y z : Q) : Q :=
  fmul (lit (1 # 2)) (fadd (noise_res p x y z) (lit 1)).

(** ** The bake loop of [make3DNoiseTex] *)

(** [std::round]: to the nearest integer, halfway cases away from zero. *)
Definition std_round (q : Q) : Z :=
  if fltb q 0 then (- Qfloor (- q + (1 # 2)))%Z else Qfloor (q + (1 # 2)).

(** [(unsigned char)] of an integral value. *)
Definition to_uchar (r : Z) : Z := (r mod 256)%Z.

(** A loop [for (int i = 0; i < n; ++i) body], threading the state. *)
Definition for_loop {S : Type} (n : Z) (body : Z -> S -> S) (s : S) : S :=
  fold_left (fun s i => body (Z.of_nat i) s) (seq 0 (Z.to_nat n)) s.

Section Bake.
Variables (per : list Z) (lacunarity gain : Q).

(** The variables [f], [amp], [freq] of the octave loop. *)
Record fbm_state := { fbm_f : Q; fbm_amp : Q; fbm_freq : Q }.

(** f += amp * per.noise(fx*freq*8.0f, fy*freq*8.0f, fz*freq*8.0f);
    freq *= lacunarity; amp *= gain; *)
Definition fbm_body (fx fy fz : Q) (st : fbm_state) : fbm_state :=
  let n := noise per (fmul (fmul fx (fbm_freq st)) (lit 8))
                     (fmul (fmul fy (fbm_freq st)) (lit 8))
                     (fmul (fmul fz (fbm_freq st)) (lit 8)) in
  {| fbm_f := fadd (fbm_f st) (fmul (fbm_amp st) n);
     fbm_amp := fmul (fbm_amp st) gain;
     fbm_freq := fmul (fbm_freq st) lacunarity |}.

(** float f = 0.0f, amp = 1.0f, freq = 1.0f; for (o < octaves) ... *)
Definition fbm (octaves : Z) (fx fy fz : Q) : Q :=
  fbm_f (for_loop octaves (fun _ => fbm_body fx fy fz)
           {| fbm_f := lit 0; fbm_amp := lit 1; fbm_freq := lit 1 |}).

(** The value rounded by [std::round] for the cell (x, y, z). *)
Definition voxel_round (N octaves : Z) (x y z : Z) : Z :=
  let invN := fdiv (lit 1) (of_int N) in
  let fx := fmul (of_int x) invN in
  let fy := fmul (of_int y) invN in
  let fz := fmul (of_int z) invN in
  let f := fbm octaves fx fy fz in
  let f := clamp01 (fdiv f (lit (3 # 2))) in
  std_round (fmul f (lit 255)).

(** The byte stored for the cell (x, y, z). *)
Definition voxel (N octaves : Z) (x y z : Z) : Z :=
  to_uchar (voxel_round N octaves x y z).

(** vox[(z * N + y) * N + x] = ... *)
Definition store (N octaves : Z) (x y z : Z) (vox : list Z) : list Z :=
  <[Z.to_nat ((z * N + y) * N + x) := voxel N octaves x y z]> vox.

Definition bake_loop (N octaves : Z) (vox : list Z) : list Z :=
  for_loop N (fun z vox =>
    for_loop N (fun y vox =>
      for_loop N (fun x vox => store N octaves x y z vox) vox) vox) vox.
End Bake.

(** The voxel grid that [make3DNoiseTex] uploads with [glTexImage3D]. *)
Definition make3DNoiseTex (N octaves : Z) (lacunarity gain : Q) (seed : Z)
  : list Z :=
  let per := Perlin3D seed in
  let vox := replicate (Z.to_nat (N * N * N)) 0%Z in
  bake_loop per lacunarity gain N octaves vox.

(** ** Quick controls of the render loop *)

Inductive Key :=
| KEY_LEFT_BRACKET | KEY_RIGHT_BRACKET | KEY_MINUS | KEY_EQUAL
| KEY_W | KEY_S | KEY_D | KEY_A | KEY_1 | KEY_2.

(** The tunable locals of [main]. *)
Record Tuning := {
  fireScale : Q; smokeScale : Q; fireSpeed : Q; smokeSpeed : Q;
  fireHeight : Q
}.

Definition initial_tuning : Tuning :=
  {| fireScale := lit (32 # 10); smokeScale := lit (22 # 10);
     fireSpeed := lit (75 # 100); smokeSpeed := lit (18 # 100);
     fireHeight := lit (55 # 100) |}.

Definition set_fireScale (v : Q) (t : Tuning) : Tuning :=
  {| fireScale := v; smokeScale := smokeScale t; fireSpeed := fireSpeed t;
     smokeSpeed := smokeSpeed t; fireHeight := fireHeight t |}.
Definition set_smokeScale (v : Q) (t : Tuning) : Tuning :=
  {| fireScale := fireScale t; smokeScale := v; fireSpeed := fireSpeed t;
     smokeSpeed := smokeSpeed t; fireHeight := fireHeight t |}.
Definition set_fireSpeed (v : Q) (t : Tuning) : Tuning :=
  {| fireScale := fireScale t; smokeScale := smokeScale t; fireSpeed := v;
     smokeSpeed := smokeSpeed t; fireHeight := fireHeight t |}.
Definition set_smokeSpeed (v : Q) (t : Tuning) : Tuning :=
  {| fireScale := fireScale t; smokeScale := smokeScale t;
     fireSpeed := fireSpeed t; smokeSpeed := v; fireHeight := fireHeight t |}.
Definition set_fireHeight (v : Q) (t : Tuning) : Tuning :=
  {| fireScale := fireScale t; smokeScale := smokeScale t;
     fireSpeed := fireSpeed t; smokeSpeed := smokeSpeed t; fireHeight := v |}.

(** if (glfwGetKey(win, k) == GLFW_PRESS) update; *)
Definition on_key (pressed : Key -> bool) (k : Key)
           (update : Tuning -> Tuning) (t : Tuning) : Tuning :=
  if pressed k then update t else t.

(** The ten [if] statements, in source order. *)
Definition quick_controls (pressed : Key -> bool) (t : Tuning) : Tuning :=
  let t := on_key pressed KEY_LEFT_BRACKET (fun t =>
    set_smokeScale (std_max (lit (5 # 10)) (fsub (smokeScale t) (lit (1 # 100)))) t) t in
  let t := on_key pressed KEY_RIGHT_BRACKET (fun t =>
    set_smokeScale (std_min (lit 6) (fadd (smokeScale t) (lit (1 # 100)))) t) t in
  let t := on_key pressed KEY_MINUS (fun t =>
    set_fireScale (std_max (lit (8 # 10)) (fsub (fireScale t) (lit (1 # 100)))) t) t in
  let t := on_key pressed KEY_EQUAL (fun t =>
    set_fireScale (std_min (lit 6) (fadd (fireScale t) (lit (1 # 100)))) t) t in
  let t := on_key pressed KEY_W (fun t =>
    set_smokeSpeed (std_min (lit (8 # 10)) (fadd (smokeSpeed t) (lit (1 # 1000)))) t) t in
  let t := on_key pressed KEY_S (fun t =>
    set_smokeSpeed (std_max (lit (2 # 100)) (fsub (smokeSpeed t) (lit (1 # 1000)))) t) t in
  let t := on_key pressed KEY_D (fun t =>
    set_fireSpeed (std_min (lit 2) (fadd (fireSpeed t) (lit (5 # 1000)))) t) t in
  let t := on_key pressed KEY_A (fun t =>
    set_fireSpeed (std_max (lit (5 # 100)) (fsub (fireSpeed t) (lit (5 # 1000)))) t) t in
  let t := on_key pressed KEY_1 (fun t =>
    set_fireHeight (std_max (lit (3 # 10)) (fsub (fireHeight t) (lit (5 # 1000)))) t) t in
  let t := on_key pressed KEY_2 (fun t =>
    set_fireHeight (std_min (lit (9 # 10)) (fadd (fireHeight t) (lit (5 # 1000)))) t) t in
  t.

(** The tuning after a run of loop iterations, one key state each. *)
Definition run_controls (frames : list (Key -> bool)) (t : Tuning) : Tuning :=
  fold_left (fun t pressed => quick_controls pressed t) frames t.

End Float.

(** Exact arithmetic: no rounding. *)
Definition exact (q : Q) : Q := q.

(** *** IEEE binary32

    Round to nearest, ties to even: the exact value is rounded to the
    nearest multiple of its unit in the last place.  The exponent range is
    bounded below (subnormals) and unbounded above. *)

(** 2^k, for an exponent of either sign. *)
Definition pow2 (k : Z) : Q := (2 ^ k)%Q.

(** Round to the nearest integer, ties to even. *)
Definition rne (x : Q) : Z :=
  let f := Qfloor x in
  match Qcompare (x - inject_Z f)%Q (1 # 2) with
  | Lt => f
  | Gt => (f + 1)%Z
  | Eq => if Z.even f then f else (f + 1)%Z
  end.

(** The exponent e with 2^e <= q < 2^(e+1), for q > 0. *)
Definition binade (q : Q) : Z :=
  let e0 := (Z.log2 (Qnum q) - Z.log2 (Zpos (Qden q)))%Z in
  if Qle_bool (pow2 e0) q then e0 else (e0 - 1)%Z.

(** The exponent of the unit in the last place: 24 significant bits, the
    exponent at least -126. *)
Definition ulp_exp (q : Q) : Z := (Z.max (binade (Qabs q)) (-126) - 23)%Z.

Definition round_b32 (q : Q) : Q :=
  if Qeq_bool q 0 then 0%Q
  else let k := ulp_exp q in
       Qred (inject_Z (rne (q / pow2 k)) * pow2 k)%Q.

(** ** Shaders and blending (GLSL side, over the reals) *)

Module GLSL.
Local Open Scope R_scope.

(** Built-in functions, as the GLSL specification defines them. *)
Definition clamp (x minVal maxVal : R) : R := Rmin (Rmax x minVal) maxVal.
Definition mix (x y a : R) : R := x * (1 - a) + y * a.
Definition smoothstep (edge0 edge1 x : R) : R :=
  let t := clamp ((x - edge0) / (edge1 - edge0)) 0 1 in
  t * t * (3 - 2 * t).

Record vec3 := mkvec3 { v_x : R; v_y : R; v_z : R }.
Record vec4 := mkvec4 { c_r : R; c_g : R; c_b : R; c_a : R }.
End GLSL.

Module FRAG_SMOKE.
Import GLSL.
Local Open Scope R_scope.

Section main.
(** uniforms *)
Variable uNoise : vec3 -> R.       (* texture(uNoise, p).r *)
Variables uTime uScale uSpeed uSoftEdge uOpacity : R.
(** vec2 uv = vUV *)
Variables uv_x uv_y : R.

Definition wave : R :=
  sin (uv_y * 8.0 + uTime * 0.8) * 0.1 +
  sin (uv_y * 3.5 + uTime * 0.4) * 0.05.

Definition dx : R := Rabs (uv_x - 0.5 - wave).
Definition halfW : R := 0.35.
Definition edge : R := uSoftEdge * 0.8.
Definition mask : R := 1.0 - smoothstep (halfW - edge) halfW dx.

Definition z : R := uTime * uSpeed.
Definition p : vec3 := mkvec3 (uv_x * uScale + wave) (uv_y * uScale) z.
Definition n : R := uNoise p.

Definition fadeUp : R := smoothstep 0.0 1.0 uv_y.
(** The expression of [density], with the sampled value as an argument. *)
Definition density_of (n : R) : R :=
  clamp (n * 1.2 - 0.25 + (1.0 - fadeUp) * 0.15) 0.0 1.0.
Definition density : R := density_of n.

Definition a : R := mask * density * uOpacity.
Definition c : R := mix 0.2 0.55 fadeUp * density.
Definition FragColor : vec4 := mkvec4 c c c a.
End main.
End FRAG_SMOKE.

(** The blend state of the two draws.  [glBlendFunc(sfactor, dfactor)] with
    the default equation GL_FUNC_ADD writes, on every channel,
    src * sfactor + dst * dfactor. *)
Module Blend.
Import GLSL.
Local Open Scope R_scope.

Inductive factor := GL_SRC_ALPHA | GL_ONE | GL_ONE_MINUS_SRC_ALPHA.

Definition weight (f : factor) (src : vec4) : R :=
  match f with
  | GL_SRC_ALPHA => c_a src
  | GL_ONE => 1
  | GL_ONE_MINUS_SRC_ALPHA => 1 - c_a src
  end.

Definition glBlendFunc (sfactor dfactor : factor) (src dst : vec4) : vec4 :=
  let s := weight sfactor src in
  let d := weight dfactor src in
  mkvec4 (c_r src * s + c_r dst * d) (c_g src * s + c_g dst * d)
         (c_b src * s + c_b dst * d) (c_a src * s + c_a dst * d).

(** FIRE (draw first, additive): glBlendFunc(GL_SRC_ALPHA, GL_ONE). *)
Definition draw_fire (fire dst : vec4) : vec4 :=
  glBlendFunc GL_SRC_ALPHA GL_ONE fire dst.
(** SMOKE (alpha blended over):
    glBlendFunc(GL_SRC_ALPHA, GL_ONE_MINUS_SRC_ALPHA). *)
Definition draw_smoke (smoke dst : vec4) : vec4 :=
  glBlendFunc GL_SRC_ALPHA GL_ONE_MINUS_SRC_ALPHA smoke dst.

(** One pixel of a frame, in the order of the render loop and reversed. *)
Definition fire_then_smoke (fire smoke dst : vec4) : vec4 :=
  draw_smoke smoke (draw_fire fire dst).
Definition smoke_then_fire (fire smoke dst : vec4) : vec4 :=
  draw_fire fire (draw_smoke smoke dst).

(** glClearColor(0.02f, 0.02f, 0.03f, 1.0f) *)
Definition clear_color : vec4 := mkvec4 0.02 0.02 0.03 1.0.
End Blend.

(** ** Predicates and formulas used by the statements *)

(** The indices of one call: the cell coordinates are in [0,255], the sums
    [A], [B], [AA], [AB], [BA], [BB] in [0,510]. *)
Definition cell_in_bounds (c : cell) : Prop :=
  (0 <= cX c <= 255 /\ 0 <= cY c <= 255 /\ 0 <= cZ c <= 255 /\
   0 <= cA c <= 510 /\ 0 <= cB c <= 510 /\
   0 <= cAA c <= 510 /\ 0 <= cAB c <= 510 /\
   0 <= cBA c <= 510 /\ 0 <= cBB c <= 510)%Z.

(** What the theorems below ask of the rounding: it is monotone, it leaves
    a float unchanged, and 0, 1, 1/2 and 255 are floats. *)
Record Rounding (rnd : Q -> Q) : Prop := {
  rnd_mono : forall a b, (a <= b)%Q -> (rnd a <= rnd b)%Q;
  rnd_idem : forall q, (rnd (rnd q) == rnd q)%Q;
  rnd_0 : rnd 0%Q = 0%Q;
  rnd_1 : rnd 1%Q = 1%Q;
  rnd_half : rnd (1 # 2)%Q = (1 # 2)%Q;
  rnd_255 : rnd 255%Q = 255%Q
}.

(** v lies between the float literals [lo] and [hi]. *)
Definition in_range (rnd : Q -> Q) (lo hi v : Q) : Prop :=
  (lit rnd lo <= v /\ v <= lit rnd hi)%Q.

(** The documented ranges of the five tunable values. *)
Definition tuning_in_range (rnd : Q -> Q) (t : Tuning) : Prop :=
  in_range rnd (5 # 10) 6%Q (smokeScale t) /\
  in_range rnd (8 # 10) 6%Q (fireScale t) /\
  in_range rnd (2 # 100) (8 # 10) (smokeSpeed t) /\
  in_range rnd (5 # 100) 2%Q (fireSpeed t) /\
  in_range rnd (3 # 10) (9 # 10) (fireHeight t).

(** The linear index of the cell (x, y, z). *)
Definition cell_index (N x y z : Z) : Z := ((z * N + y) * N + x)%Z.

(** Every cell whose linear index is below [m] holds its byte. *)
Definition written_below (rnd : Q -> Q) (per : list Z) (lacunarity gain : Q)
    (N octaves : Z) (m : Z) (vox : list Z) : Prop :=
  length vox = Z.to_nat (N * N * N) /\
  forall x y z, (0 <= x < N)%Z -> (0 <= y < N)%Z -> (0 <= z < N)%Z ->
    (cell_index N x y z < m)%Z ->
    vox !! Z.to_nat (cell_index N x y z)
    = Some (voxel rnd per lacunarity gain N octaves x y z).

(** *** The formula of the specification *)

(** q to the power n. *)
Fixpoint pow (q : Q) (n : nat) : Q :=
  match n with
  | O => 1
  | S n => pow q n * q
  end.

(** The sum over o < octaves of gain^o * noise(lac^o*8*fx, lac^o*8*fy,
    lac^o*8*fz), in exact arithmetic. *)
Fixpoint fbm_sum (per : list Z) (lacunarity gain fx fy fz : Q) (octaves : nat)
  : Q :=
  match octaves with
  | O => 0
  | S o =>
      fbm_sum per lacunarity gain fx fy fz o +
      pow gain o * noise exact per (pow lacunarity o * 8 * fx)
                                   (pow lacunarity o * 8 * fy)
                                   (pow lacunarity o * 8 * fz)
  end.

(** round(255 * clamp01(S / 1.5)) at the normalised coordinates
    (x/N, y/N, z/N). *)
Definition bake_formula (N octaves : Z) (lacunarity gain : Q) (seed : Z)
    (x y z : Z) : Z :=
  let S := fbm_sum (Perlin3D seed) lacunarity gain
             (inject_Z x / inject_Z N) (inject_Z y / inject_Z N)
             (inject_Z z / inject_Z N) (Z.to_nat octaves) in
  std_round (255 * clamp01 (S / (3 # 2))).

(** The state of the octave loop when it is about to run octave [i]. *)
Definition fbm_invariant (lacunarity gain : Q) (S : nat -> Q) (i : Z)
    (st : fbm_state) : Prop :=
  (fbm_f st == S (Z.to_nat i) /\
   fbm_amp st == pow gain (Z.to_nat i) /\
   fbm_freq st == pow lacunarity (Z.to_nat i))%Q.

(** The term added to the rescaled sample. *)
Definition fade_term (uv_y : R) : R :=
  ((1.0 - FRAG_SMOKE.fadeUp uv_y) * 0.15)%R.

(** * Properties *)

(** ** The permutation table *)

Lemma land_255 (a : Z) : Z.land a 255 = (a mod 256)%Z.
Proof. change 255%Z with (Z.ones 8). by rewrite Z.land_ones. Qed.

Lemma land_255_range (a : Z) : (0 <= Z.land a 255 <= 255)%Z.
Proof. rewrite land_255. pose proof (Z.mod_pos_bound a 256). lia. Qed.

Lemma land_255_period (a : Z) : Z.land (a + 256) 255 = Z.land a 255.
Proof.
  rewrite !land_255. replace (a + 256)%Z with (a + 1 * 256)%Z by lia.
  by rewrite Z.mod_add.
Qed.

Lemma Forall_at (P : Z -> Prop) (l : list Z) (i : nat) :
  Forall P l -> i < length l -> P (l !!! i).
Proof. apply Forall_lookup_total_1. Qed.

Lemma length_swap (perm : list Z) (i j : nat) :
  length (swap perm i j) = length perm.
Proof. unfold swap. by rewrite !length_insert. Qed.

Lemma Forall_swap (P : Z -> Prop) (perm : list Z) (i j : nat) :
  i < length perm -> j < length perm ->
  Forall P perm -> Forall P (swap perm i j).
Proof.
  intros Hi Hj HP. unfold swap.
  apply Forall_insert; [apply Forall_insert|]; auto;
    by apply Forall_at.
Qed.

(** The index [j = s % (i + 1)] drawn by the loop stays at or below [i]. *)
Lemma shuffle_index (s : Z) (i : nat) :
  Z.to_nat (lcg s mod (Z.of_nat i + 1)) <= i.
Proof.
  pose proof (Z.mod_pos_bound (lcg s) (Z.of_nat i + 1)). lia.
Qed.

Lemma length_shuffle (i : nat) (s : Z) (perm : list Z) :
  length (shuffle i s perm) = length perm.
Proof.
  revert s perm. induction i as [|i IH]; intros s perm; simpl; [done|].
  by rewrite IH, length_swap.
Qed.

Lemma Forall_shuffle (P : Z -> Prop) (i : nat) (s : Z) (perm : list Z) :
  i < length perm -> Forall P perm -> Forall P (shuffle i s perm).
Proof.
  revert s perm. induction i as [|i IH]; intros s perm Hi HP; simpl; [done|].
  pose proof (shuffle_index s (S i)) as Hj.
  apply IH; [rewrite length_swap; lia|].
  apply Forall_swap; auto; lia.
Qed.

Lemma length_identity_perm : length identity_perm = 256.
Proof. reflexivity. Qed.

Lemma Forall_identity_perm :
  Forall (fun v => (0 <= v <= 255)%Z) identity_perm.
Proof.
  unfold identity_perm. apply Forall_forall. intros v Hv.
  apply list_elem_of_In, in_map_iff in Hv. destruct Hv as (k & <- & Hk).
  apply in_seq in Hk. lia.
Qed.

Lemma length_Perlin3D (seed : Z) : length (Perlin3D seed) = 512.
Proof. unfold Perlin3D. by rewrite length_map, length_seq. Qed.

(** Entry [i] of the table is entry [i & 255] of the shuffled sequence. *)
Lemma Perlin3D_at (seed i : Z) :
  (0 <= i < 512)%Z ->
  at_ (Perlin3D seed) i =
  shuffle 255 seed identity_perm !!! Z.to_nat (Z.land i 255).
Proof.
  intros Hi. unfold at_, Perlin3D.
  change (map ?f ?l) with (f <$> l).
  rewrite (list_lookup_total_fmap _ (Inhabited0 := populate 0%nat))
    by (rewrite length_seq; lia).
  rewrite lookup_total_seq_lt by lia. cbv beta.
  by rewrite Nat.add_0_l, Z2Nat.id by lia.
Qed.

Lemma Perlin3D_at_range (seed i : Z) :
  (0 <= i < 512)%Z -> (0 <= at_ (Perlin3D seed) i <= 255)%Z.
Proof.
  intros Hi. rewrite Perlin3D_at by done.
  apply (Forall_at (fun v => (0 <= v <= 255)%Z)).
  - apply Forall_shuffle; [rewrite length_identity_perm; lia|].
    apply Forall_identity_perm.
  - rewrite length_shuffle, length_identity_perm.
    pose proof (land_255_range i). lia.
Qed.

Lemma Forall_Perlin3D (seed : Z) :
  Forall (fun v => (0 <= v <= 255)%Z) (Perlin3D seed).
Proof.
  apply Forall_lookup. intros i v Hv.
  assert (i < 512) as Hi by (rewrite <- (length_Perlin3D seed); by eapply lookup_lt_Some).
  apply list_lookup_total_correct in Hv as <-.
  pose proof (Perlin3D_at_range seed (Z.of_nat i)) as H.
  unfold at_ in H. rewrite Nat2Z.id in H. apply H. lia.
Qed.

Lemma Perlin3D_dup (seed i : Z) :
  (0 <= i < 256)%Z ->
  at_ (Perlin3D seed) (i + 256) = at_ (Perlin3D seed) i.
Proof.
  intros Hi. rewrite !Perlin3D_at by lia. by rewrite land_255_period.
Qed.


Lemma noise_cell_in_bounds (seed : Z) (x y z : Q) :
  cell_in_bounds (noise_cell (Perlin3D seed) x y z).
Proof.
  unfold cell_in_bounds, noise_cell; simpl.
  pose proof (land_255_range (int_of_floorf x)) as HX.
  pose proof (land_255_range (int_of_floorf y)) as HY.
  pose proof (land_255_range (int_of_floorf z)) as HZ.
  set (X := Z.land (int_of_floorf x) 255) in *.
  set (Y := Z.land (int_of_floorf y) 255) in *.
  set (Z_ := Z.land (int_of_floorf z) 255) in *.
  pose proof (Perlin3D_at_range seed X) as HpX.
  pose proof (Perlin3D_at_range seed (X + 1)) as HpX1.
  set (A := (at_ (Perlin3D seed) X + Y)%Z) in *.
  set (B := (at_ (Perlin3D seed) (X + 1) + Y)%Z) in *.
  assert (0 <= A <= 510)%Z as HA by lia.
  assert (0 <= B <= 510)%Z as HB by lia.
  pose proof (Perlin3D_at_range seed A).
  pose proof (Perlin3D_at_range seed (A + 1)).
  pose proof (Perlin3D_at_range seed B).
  pose proof (Perlin3D_at_range seed (B + 1)).
  lia.
Qed.

(** C10.  For every seed the table has 512 entries, all in [0,255], its
    second half repeats the first, and every index that [noise] computes
    (X, X+1, A, A+1, B, B+1, AA, AA+1, AB, AB+1, BA, BA+1, BB, BB+1) lies in
    [0,511]: no access reads out of bounds. *)
Theorem noise_indices_in_bounds (seed : Z) (x y z : Q) :
  let p := Perlin3D seed in
  let c := noise_cell p x y z in
  length p = 512 /\
  Forall (fun v => (0 <= v <= 255)%Z) p /\
  Forall (fun i => at_ p (i + 256) = at_ p i) (map Z.of_nat (seq 0 256)) /\
  Forall (fun i => (0 <= i <= 511)%Z)
    [cX c; cX c + 1; cA c; cA c + 1; cB c; cB c + 1;
     cAA c; cAA c + 1; cAB c; cAB c + 1;
     cBA c; cBA c + 1; cBB c; cBB c + 1]%Z.
Proof.
  intros p c. split; [apply length_Perlin3D|].
  split; [apply Forall_Perlin3D|]. split.
  - apply Forall_forall. intros i Hi.
    apply list_elem_of_In, in_map_iff in Hi. destruct Hi as (k & <- & Hk).
    apply in_seq in Hk. apply Perlin3D_dup. lia.
  - pose proof (noise_cell_in_bounds seed x y z) as H.
    fold p in H. fold c in H. unfold cell_in_bounds in H.
    repeat (apply Forall_cons; split; [lia|]). apply Forall_nil_2.
Qed.

(** ** Float operations and equal values *)

Local Open Scope Q_scope.

Lemma Qfloor_unique (x : Q) (n : Z) :
  inject_Z n <= x -> x < inject_Z (n + 1) -> Qfloor x = n.
Proof.
  intros Hl Hu. apply Z.le_antisymm.
  - apply Z.lt_succ_r. rewrite Zlt_Qlt.
    eapply Qle_lt_trans; [apply Qfloor_le|]. exact Hu.
  - rewrite <- (Qfloor_Z n) at 1. by apply Qfloor_resp_le.
Qed.

Lemma Qfloor_shift (x : Q) (k : Z) : Qfloor (x + inject_Z k) = (Qfloor x + k)%Z.
Proof.
  apply Qfloor_unique.
  - rewrite inject_Z_plus. apply Qplus_le_l, Qfloor_le.
  - replace (Qfloor x + k + 1)%Z with ((Qfloor x + 1) + k)%Z by lia.
    rewrite inject_Z_plus. apply Qplus_lt_l, Qlt_floor.
Qed.

Section FloatFacts.
Variable rnd : Q -> Q.

(** Equal rationals round to the same float, whatever their numerator
    and denominator. *)
Lemma fl_Qeq (q q' : Q) : q == q' -> fl rnd q = fl rnd q'.
Proof. intros H. unfold fl. by rewrite (Qred_complete _ _ H). Qed.

Lemma fadd_Qeq a a' b b' : a == a' -> b == b' -> fadd rnd a b = fadd rnd a' b'.
Proof. intros Ha Hb. apply fl_Qeq. by rewrite Ha, Hb. Qed.
Lemma fsub_Qeq a a' b b' : a == a' -> b == b' -> fsub rnd a b = fsub rnd a' b'.
Proof. intros Ha Hb. apply fl_Qeq. by rewrite Ha, Hb. Qed.
Lemma fmul_Qeq a a' b b' : a == a' -> b == b' -> fmul rnd a b = fmul rnd a' b'.
Proof. intros Ha Hb. apply fl_Qeq. by rewrite Ha, Hb. Qed.
Lemma fdiv_Qeq a a' b b' : a == a' -> b == b' -> fdiv rnd a b = fdiv rnd a' b'.
Proof. intros Ha Hb. apply fl_Qeq. by rewrite Ha, Hb. Qed.

(** The fractional part [x - floorf(x)] of equal inputs. *)
Lemma frac_Qeq (x x' : Q) :
  x == x' -> fsub rnd x (floorf x) = fsub rnd x' (floorf x').
Proof.
  intros H. apply fsub_Qeq; [done|]. unfold floorf. by rewrite H.
Qed.

Lemma noise_cell_Qeq (p : list Z) (x x' y y' z z' : Q) :
  x == x' -> y == y' -> z == z' -> noise_cell p x y z = noise_cell p x' y' z'.
Proof. intros Hx Hy Hz. unfold noise_cell, int_of_floorf. by rewrite Hx, Hy, Hz. Qed.

(** [noise] reads its arguments only through [floorf] and a subtraction:
    equal inputs give the same result. *)
Lemma noise_res_Qeq (p : list Z) (x x' y y' z z' : Q) :
  x == x' -> y == y' -> z == z' -> noise_res rnd p x y z = noise_res rnd p x' y' z'.
Proof.
  intros Hx Hy Hz. unfold noise_res.
  rewrite (noise_cell_Qeq p x x' y y' z z') by done.
  by rewrite (frac_Qeq x x'), (frac_Qeq y y'), (frac_Qeq z z').
Qed.

Lemma noise_Qeq (p : list Z) (x x' y y' z z' : Q) :
  x == x' -> y == y' -> z == z' -> noise rnd p x y z = noise rnd p x' y' z'.
Proof.
  intros Hx Hy Hz. unfold noise.
  by rewrite (noise_res_Qeq p x x' y y' z z').
Qed.

(** *** Periodicity *)

Lemma frac_shift (x : Q) (k : Z) :
  fsub rnd (x + inject_Z k) (floorf (x + inject_Z k)) = fsub rnd x (floorf x).
Proof.
  apply fl_Qeq. unfold floorf. rewrite Qfloor_shift, inject_Z_plus. ring.
Qed.

Lemma cell_index_shift (x : Q) :
  Z.land (int_of_floorf (x + 256)) 255 = Z.land (int_of_floorf x) 255.
Proof.
  unfold int_of_floorf. change 256%Q with (inject_Z 256).
  by rewrite Qfloor_shift, land_255_period.
Qed.

Lemma noise_period_x (p : list Z) (x y z : Q) :
  noise rnd p (x + 256) y z = noise rnd p x y z.
Proof.
  unfold noise, noise_res, noise_cell. rewrite cell_index_shift.
  change 256%Q with (inject_Z 256). by rewrite frac_shift.
Qed.

Lemma noise_period_y (p : list Z) (x y z : Q) :
  noise rnd p x (y + 256) z = noise rnd p x y z.
Proof.
  unfold noise, noise_res, noise_cell. rewrite cell_index_shift.
  change 256%Q with (inject_Z 256). by rewrite frac_shift.
Qed.

Lemma noise_period_z (p : list Z) (x y z : Q) :
  noise rnd p x y (z + 256) = noise rnd p x y z.
Proof.
  unfold noise, noise_res, noise_cell. rewrite cell_index_shift.
  change 256%Q with (inject_Z 256). by rewrite frac_shift.
Qed.
End FloatFacts.


(** A negative coordinate: the cell of -1/2 is 255, not 0. *)
Example negative_cell : Z.land (int_of_floorf (- (1 # 2))) 255 = 255%Z.
Proof. reflexivity. Qed.

(** ** Roundings *)

Lemma exact_Rounding : Rounding exact.
Proof. by split; unfold exact. Qed.

(** ** Binary32 rounding is a rounding *)

(** *** Powers of two *)

Lemma pow2_pos (k : Z) : 0 < pow2 k.
Proof. apply Qpower_0_lt. reflexivity. Qed.

Lemma pow2_add (a b : Z) : pow2 (a + b) == pow2 a * pow2 b.
Proof. apply Qpower_plus. discriminate. Qed.

Lemma pow2_le (a b : Z) : (a <= b)%Z -> pow2 a <= pow2 b.
Proof. intros H. apply Qpower_le_compat_l; [exact H|discriminate]. Qed.

Lemma pow2_lt_inv (a b : Z) : pow2 a < pow2 b -> (a < b)%Z.
Proof. intros H. apply (Qpower_lt_compat_l_inv 2); [exact H|reflexivity]. Qed.

Lemma pow2_Z (n : Z) : (0 <= n)%Z -> pow2 n == inject_Z (2 ^ n).
Proof. intros H. unfold pow2. rewrite Zpower_Qpower by exact H. reflexivity. Qed.

Lemma pow2_0 : pow2 0 == 1.
Proof. reflexivity. Qed.

Lemma div_pow2 (q : Q) (k : Z) : q / pow2 k == q * pow2 (- k).
Proof. unfold Qdiv, pow2. rewrite Qpower_opp. reflexivity. Qed.

Lemma pow2_cancel (k : Z) : pow2 (- k) * pow2 k == 1.
Proof. rewrite <- pow2_add. replace (- k + k)%Z with 0%Z by lia. reflexivity. Qed.

(** *** Rounding to the nearest integer *)

Lemma rne_comp (x y : Q) : x == y -> rne x = rne y.
Proof.
  intros H. unfold rne. cbv zeta. rewrite (Qfloor_comp x y H).
  assert (Qcompare (x - inject_Z (Qfloor y)) (1 # 2) =
          Qcompare (y - inject_Z (Qfloor y)) (1 # 2)) as ->
    by (apply Qcompare_comp; [rewrite H|]; reflexivity).
  reflexivity.
Qed.

Lemma rne_floor (x : Q) : (Qfloor x <= rne x <= Qfloor x + 1)%Z.
Proof.
  unfold rne. destruct (Qcompare _ _); [destruct (Z.even _)| |]; lia.
Qed.

Lemma rne_Z (z : Z) : rne (inject_Z z) = z.
Proof.
  unfold rne. cbv zeta. rewrite Qfloor_Z.
  destruct (Qcompare_spec (inject_Z z - inject_Z z) (1 # 2)); [lra|reflexivity|lra].
Qed.

Lemma rne_mono (x y : Q) : x <= y -> (rne x <= rne y)%Z.
Proof.
  intros H.
  pose proof (Qfloor_resp_le x y H) as Hf.
  pose proof (rne_floor x) as Hx. pose proof (rne_floor y) as Hy.
  destruct (Z.eq_dec (Qfloor x) (Qfloor y)) as [He|Hne]; [|lia].
  unfold rne. cbv zeta. rewrite <- He.
  destruct (Qcompare_spec (x - inject_Z (Qfloor x)) (1 # 2)) as [H1|H1|H1];
    destruct (Qcompare_spec (y - inject_Z (Qfloor x)) (1 # 2)) as [H2|H2|H2];
    try destruct (Z.even (Qfloor x)); try lia; lra.
Qed.

Lemma rne_ge (x : Q) (z : Z) : inject_Z z <= x -> (z <= rne x)%Z.
Proof. intros H. rewrite <- (rne_Z z). apply rne_mono, H. Qed.

Lemma rne_le (x : Q) (z : Z) : x <= inject_Z z -> (rne x <= z)%Z.
Proof. intros H. rewrite <- (rne_Z z). apply rne_mono, H. Qed.

Lemma Qfloor_opp_frac (x : Q) :
  ~ x == inject_Z (Qfloor x) -> Qfloor (- x) = (- Qfloor x - 1)%Z.
Proof.
  intros H. pose proof (Qfloor_le x). pose proof (Qlt_floor x) as Hlt.
  rewrite inject_Z_plus in Hlt.
  assert (Qfloor (- x) <= - Qfloor x - 1)%Z as H1.
  { apply Z.lt_succ_r. rewrite Zlt_Qlt.
    eapply Qle_lt_trans; [apply Qfloor_le|].
    replace (Z.succ (- Qfloor x - 1)) with (- Qfloor x)%Z by lia.
    rewrite inject_Z_opp.
    destruct (Qlt_le_dec (inject_Z (Qfloor x)) x); [lra|].
    exfalso. apply H. lra. }
  assert (- Qfloor x - 1 <= Qfloor (- x))%Z as H2.
  { rewrite <- (Qfloor_Z (- Qfloor x - 1)). apply Qfloor_resp_le.
    unfold Z.sub. rewrite inject_Z_plus, !inject_Z_opp. simpl inject_Z at 2. lra. }
  lia.
Qed.

Lemma rne_opp (x : Q) : rne (- x) = (- rne x)%Z.
Proof.
  destruct (Qeq_dec x (inject_Z (Qfloor x))) as [Hi|Hf].
  - rewrite (rne_comp x _ Hi), (rne_comp (- x) (inject_Z (- Qfloor x))).
    + rewrite !rne_Z. reflexivity.
    + rewrite inject_Z_opp, <- Hi. reflexivity.
  - unfold rne. cbv zeta. rewrite (Qfloor_opp_frac x Hf).
    pose proof (Qfloor_le x). pose proof (Qlt_floor x) as Hlt.
    rewrite inject_Z_plus in Hlt.
    set (f := Qfloor x) in *.
    assert (- x - inject_Z (- f - 1) == 1 - (x - inject_Z f)) as Hr.
    { unfold Z.sub. rewrite inject_Z_plus, !inject_Z_opp. simpl inject_Z at 2. ring. }
    rewrite Hr.
    destruct (Qcompare_spec (x - inject_Z f) (1 # 2)) as [H1|H1|H1];
      destruct (Qcompare_spec (1 - (x - inject_Z f)) (1 # 2)) as [H2|H2|H2];
      try lra; try lia.
    replace (- f - 1)%Z with (- (f + 1))%Z by lia.
    rewrite Z.even_opp, Z.even_add. simpl (Z.even 1).
    destruct (Z.even f); simpl; lia.
Qed.

(** *** The binade of a positive rational *)

Lemma Qmake_mult_den (q : Q) : q * inject_Z (Zpos (Qden q)) == inject_Z (Qnum q).
Proof.
  destruct q as [n d]. unfold Qeq, Qmult, inject_Z; simpl. lia.
Qed.

Lemma Qnum_pos (q : Q) : 0 < q -> (0 < Qnum q)%Z.
Proof. destruct q as [n d]. unfold Qlt; simpl. lia. Qed.

Lemma binade_coarse (q : Q) :
  0 < q ->
  let e0 := (Z.log2 (Qnum q) - Z.log2 (Zpos (Qden q)))%Z in
  pow2 (e0 - 1) <= q /\ q < pow2 (e0 + 1).
Proof.
  intros Hq e0.
  pose proof (Qnum_pos q Hq) as Hn.
  pose proof (Z.log2_spec (Qnum q) Hn) as [Ha1 Ha2].
  pose proof (Z.log2_spec (Zpos (Qden q)) (Pos2Z.is_pos _)) as [Hb1 Hb2].
  pose proof (Z.log2_nonneg (Qnum q)) as Ha0.
  pose proof (Z.log2_nonneg (Zpos (Qden q))) as Hb0.
  set (a := Z.log2 (Qnum q)) in *. set (b := Z.log2 (Zpos (Qden q))) in *.
  pose proof (Qmake_mult_den q) as Hqd.
  set (D := inject_Z (Zpos (Qden q))) in *.
  set (N := inject_Z (Qnum q)) in *.
  assert (0 < D) as HD by (unfold D, Qlt; simpl; lia).
  assert (pow2 a <= N) as HA
    by (rewrite pow2_Z by lia; unfold N; rewrite <- Zle_Qle; exact Ha1).
  assert (N < pow2 (a + 1)) as HA1
    by (rewrite pow2_Z by lia; unfold N; rewrite <- Zlt_Qlt; exact Ha2).
  assert (pow2 b <= D) as HB
    by (rewrite pow2_Z by lia; unfold D; rewrite <- Zle_Qle; exact Hb1).
  assert (D < pow2 (b + 1)) as HB1
    by (rewrite pow2_Z by lia; unfold D; rewrite <- Zlt_Qlt; exact Hb2).
  pose proof (pow2_pos a). pose proof (pow2_pos (a + 1)).
  pose proof (pow2_pos (- b)). pose proof (pow2_pos (- (b + 1))).
  pose proof (pow2_cancel b) as Hcb. pose proof (pow2_cancel (b + 1)) as Hcb1.
  split.
  - apply (Qmult_le_r _ _ D HD). rewrite Hqd.
    replace (e0 - 1)%Z with (a + - (b + 1))%Z by (unfold e0; lia).
    rewrite pow2_add.
    assert (pow2 (- (b + 1)) * D <= 1) as Hle.
    { rewrite <- Hcb1. apply Qmult_le_l; [assumption|]. lra. }
    apply Qle_trans with (pow2 a); [|exact HA].
    rewrite <- (Qmult_1_r (pow2 a)) at 2. rewrite <- Qmult_assoc.
    apply Qmult_le_l; assumption.
  - apply (Qmult_lt_r _ _ D HD). rewrite Hqd.
    replace (e0 + 1)%Z with ((a + 1) + - b)%Z by (unfold e0; lia).
    rewrite pow2_add.
    assert (1 <= pow2 (- b) * D) as Hle.
    { rewrite <- Hcb. apply Qmult_le_l; assumption. }
    apply Qlt_le_trans with (pow2 (a + 1)); [exact HA1|].
    rewrite <- (Qmult_1_r (pow2 (a + 1))) at 1. rewrite <- Qmult_assoc.
    apply Qmult_le_l; assumption.
Qed.

Lemma binade_spec (q : Q) :
  0 < q -> pow2 (binade q) <= q /\ q < pow2 (binade q + 1).
Proof.
  intros Hq. destruct (binade_coarse q Hq) as [Hl Hu]. unfold binade.
  set (e0 := (Z.log2 (Qnum q) - Z.log2 (Zpos (Qden q)))%Z) in *.
  destruct (Qle_bool (pow2 e0) q) eqn:Hb.
  - apply Qle_bool_iff in Hb. split; assumption.
  - split; [exact Hl|]. replace (e0 - 1 + 1)%Z with e0 by lia.
    apply Qnot_le_lt. intros Hc. apply Qle_bool_iff in Hc. congruence.
Qed.

Lemma binade_unique (q : Q) (e : Z) :
  0 < q -> pow2 e <= q -> q < pow2 (e + 1) -> binade q = e.
Proof.
  intros Hq Hl Hu. destruct (binade_spec q Hq) as [Hl' Hu'].
  assert (pow2 e < pow2 (binade q + 1)) as H1 by lra.
  assert (pow2 (binade q) < pow2 (e + 1)) as H2 by lra.
  apply pow2_lt_inv in H1, H2. lia.
Qed.

Lemma binade_mono (a b : Q) : 0 < a -> a <= b -> (binade a <= binade b)%Z.
Proof.
  intros Ha Hab. destruct (binade_spec a Ha) as [Hl _].
  destruct (binade_spec b) as [_ Hu]; [lra|].
  assert (pow2 (binade a) < pow2 (binade b + 1)) as H by lra.
  apply pow2_lt_inv in H. lia.
Qed.

(** *** Rounding to binary32 *)

Lemma pow2_le_inv (a b : Z) : pow2 a <= pow2 b -> (a <= b)%Z.
Proof. intros H. apply (Qpower_le_compat_l_inv 2); [exact H|reflexivity]. Qed.

Lemma pow2_div (e k : Z) : pow2 e / pow2 k == pow2 (e - k).
Proof. rewrite div_pow2, <- pow2_add. reflexivity. Qed.

Lemma div_pow2_le (a b : Q) (k : Z) : a <= b -> a / pow2 k <= b / pow2 k.
Proof.
  intros H. rewrite !div_pow2. apply Qmult_le_r; [apply pow2_pos|exact H].
Qed.

Lemma div_mul_pow2 (q : Q) (k : Z) : q / pow2 k * pow2 k == q.
Proof.
  rewrite div_pow2, <- Qmult_assoc, pow2_cancel. ring.
Qed.

Lemma round_b32_zero (q : Q) : q == 0 -> round_b32 q = 0.
Proof.
  intros H. unfold round_b32. apply Qeq_bool_iff in H. rewrite H. reflexivity.
Qed.

Lemma round_b32_nonzero (q : Q) :
  ~ q == 0 ->
  round_b32 q == inject_Z (rne (q / pow2 (ulp_exp q))) * pow2 (ulp_exp q).
Proof.
  intros H. unfold round_b32. destruct (Qeq_bool q 0) eqn:Hb.
  - apply Qeq_bool_iff in Hb. contradiction.
  - apply Qred_correct.
Qed.

Lemma ulp_exp_pos (q : Q) :
  0 < q -> ulp_exp q = (Z.max (binade q) (-126) - 23)%Z.
Proof.
  intros H. unfold ulp_exp. pose proof (Qnum_pos q H).
  destruct q as [n d]; simpl in *. rewrite Z.abs_eq by lia. reflexivity.
Qed.

Lemma ulp_exp_opp (q : Q) : ulp_exp (- q) = ulp_exp q.
Proof.
  unfold ulp_exp. destruct q as [n d]; simpl. rewrite Z.abs_opp. reflexivity.
Qed.

Lemma round_b32_opp (q : Q) : round_b32 (- q) == - round_b32 q.
Proof.
  destruct (Qeq_dec q 0) as [H0|H0].
  - rewrite (round_b32_zero q H0), (round_b32_zero (- q)) by lra. reflexivity.
  - rewrite (round_b32_nonzero q H0), (round_b32_nonzero (- q)) by lra.
    rewrite ulp_exp_opp.
    rewrite (rne_comp (- q / pow2 (ulp_exp q)) (- (q / pow2 (ulp_exp q))))
      by (unfold Qdiv; ring).
    rewrite rne_opp, inject_Z_opp. ring.
Qed.

Lemma round_b32_nonneg (q : Q) : 0 <= q -> 0 <= round_b32 q.
Proof.
  intros H. destruct (Qeq_dec q 0) as [H0|H0].
  - rewrite (round_b32_zero q H0). lra.
  - rewrite (round_b32_nonzero q H0).
    apply Qmult_le_0_compat; [|apply Qlt_le_weak, pow2_pos].
    change 0 with (inject_Z 0). rewrite <- Zle_Qle. apply rne_ge.
    rewrite div_pow2. apply Qmult_le_0_compat; [exact H|].
    apply Qlt_le_weak, pow2_pos.
Qed.

Lemma round_b32_mono_pos (a b : Q) :
  0 < a -> a <= b -> round_b32 a <= round_b32 b.
Proof.
  intros Ha Hab. assert (0 < b) as Hb by lra.
  rewrite (round_b32_nonzero a), (round_b32_nonzero b) by lra.
  rewrite (ulp_exp_pos a Ha), (ulp_exp_pos b Hb).
  pose proof (binade_mono a b Ha Hab) as He.
  destruct (binade_spec a Ha) as [Hal Hau].
  destruct (binade_spec b Hb) as [Hbl Hbu].
  set (ea := binade a) in *. set (eb := binade b) in *.
  set (ka := (Z.max ea (-126) - 23)%Z). set (kb := (Z.max eb (-126) - 23)%Z).
  destruct (Z.eq_dec ka kb) as [Hk|Hk].
  - rewrite Hk. apply Qmult_le_r; [apply pow2_pos|].
    rewrite <- Zle_Qle. apply rne_mono, div_pow2_le, Hab.
  - assert (ka < kb /\ ea < eb /\ kb = eb - 23)%Z as (Hlt & Hee & Hkb)
      by (unfold ka, kb in *; lia).
    apply Qle_trans with (pow2 eb).
    + assert (rne (a / pow2 ka) <= 2 ^ (eb - ka))%Z as Hm.
      { apply rne_le. rewrite <- pow2_Z by lia. rewrite <- pow2_div.
        apply div_pow2_le. apply Qle_trans with (pow2 (ea + 1)); [lra|].
        apply pow2_le. lia. }
      apply Qle_trans with (inject_Z (2 ^ (eb - ka)) * pow2 ka).
      * apply Qmult_le_r; [apply pow2_pos|]. rewrite <- Zle_Qle. exact Hm.
      * rewrite <- pow2_Z by lia. rewrite <- pow2_add.
        replace (eb - ka + ka)%Z with eb by lia. apply Qle_refl.
    + assert (2 ^ 23 <= rne (b / pow2 kb))%Z as Hm.
      { apply rne_ge. rewrite <- pow2_Z by lia.
        replace 23%Z with (eb - kb)%Z by lia. rewrite <- pow2_div.
        apply div_pow2_le. exact Hbl. }
      apply Qle_trans with (inject_Z (2 ^ 23) * pow2 kb).
      * rewrite <- pow2_Z by lia. rewrite <- pow2_add.
        replace (23 + kb)%Z with eb by lia. apply Qle_refl.
      * apply Qmult_le_r; [apply pow2_pos|]. rewrite <- Zle_Qle. exact Hm.
Qed.

Lemma round_b32_mono (a b : Q) : a <= b -> round_b32 a <= round_b32 b.
Proof.
  intros Hab. destruct (Qlt_le_dec 0 a) as [Ha|Ha].
  - apply round_b32_mono_pos; assumption.
  - assert (round_b32 a <= 0) as Hra.
    { pose proof (round_b32_opp a) as Ho.
      pose proof (round_b32_nonneg (- a)) as Hn. lra. }
    destruct (Qlt_le_dec b 0) as [Hb|Hb].
    + pose proof (round_b32_opp a) as Hoa. pose proof (round_b32_opp b) as Hob.
      pose proof (round_b32_mono_pos (- b) (- a)) as Hm. lra.
    + pose proof (round_b32_nonneg b Hb). lra.
Qed.

Lemma round_b32_comp (a b : Q) : a == b -> round_b32 a == round_b32 b.
Proof.
  intros H. apply Qle_antisym; apply round_b32_mono; lra.
Qed.

(** A value j * 2^k, with k its own unit in the last place, is a float. *)
Lemma round_b32_representable (v : Q) (j : Z) :
  ~ v == 0 -> v == inject_Z j * pow2 (ulp_exp v) -> round_b32 v == v.
Proof.
  intros Hv Hj. rewrite (round_b32_nonzero v Hv).
  rewrite (rne_comp (v / pow2 (ulp_exp v)) (inject_Z j)).
  - rewrite rne_Z. symmetry. exact Hj.
  - rewrite Hj at 1. rewrite div_pow2, <- Qmult_assoc.
    rewrite (Qmult_comm (pow2 _)), pow2_cancel. ring.
Qed.

Lemma round_b32_idem_pos (q : Q) :
  0 < q -> round_b32 (round_b32 q) == round_b32 q.
Proof.
  intros Hq. pose proof (round_b32_nonzero q) as Hr.
  rewrite (ulp_exp_pos q Hq) in Hr. specialize (Hr ltac:(lra)).
  destruct (binade_spec q Hq) as [Hl Hu].
  set (e := binade q) in *. set (k := (Z.max e (-126) - 23)%Z) in *.
  set (m := rne (q / pow2 k)) in *. set (v := round_b32 q) in *.
  assert (0 <= m)%Z as Hm0.
  { apply rne_ge. rewrite div_pow2. apply Qmult_le_0_compat; [lra|].
    apply Qlt_le_weak, pow2_pos. }
  destruct (Z.eq_dec m 0%Z) as [Hz|Hnz].
  - assert (v == 0) as Hv0
      by (rewrite Hr, Hz; change (inject_Z 0) with 0; ring).
    rewrite (round_b32_zero v Hv0). symmetry. exact Hv0.
  - assert (0 < v) as Hv.
    { rewrite Hr. apply Qmult_lt_0_compat; [|apply pow2_pos].
      change 0 with (inject_Z 0). rewrite <- Zlt_Qlt. lia. }
    destruct (Z_lt_le_dec e (-126)%Z) as [Hsub|Hnorm].
    + (* subnormal: k = -149 and m <= 2^23 *)
      assert (k = -149)%Z as Hk by (unfold k; lia).
      assert (m <= 2 ^ 23)%Z as Hm.
      { apply rne_le. rewrite <- pow2_Z by lia.
        replace 23%Z with (-126 - k)%Z by lia. rewrite <- pow2_div.
        apply div_pow2_le. apply Qle_trans with (pow2 (e + 1)); [lra|].
        apply pow2_le. lia. }
      assert (binade v <= -126)%Z as Hbv.
      { destruct (binade_spec v Hv) as [Hvl _]. apply pow2_le_inv.
        apply Qle_trans with v; [exact Hvl|]. rewrite Hr.
        apply Qle_trans with (inject_Z (2 ^ 23) * pow2 k).
        - apply Qmult_le_r; [apply pow2_pos|]. rewrite <- Zle_Qle. exact Hm.
        - rewrite <- pow2_Z by lia. rewrite <- pow2_add.
          apply pow2_le. lia. }
      apply (round_b32_representable v m); [lra|].
      rewrite (ulp_exp_pos v Hv).
      replace (Z.max (binade v) (-126) - 23)%Z with k by lia. exact Hr.
    + (* normal: k = e - 23 and 2^23 <= m <= 2^24 *)
      assert (k = e - 23)%Z as Hk by (unfold k; lia).
      assert (2 ^ 23 <= m)%Z as Hml.
      { apply rne_ge. rewrite <- pow2_Z by lia.
        replace 23%Z with (e - k)%Z by lia. rewrite <- pow2_div.
        apply div_pow2_le. exact Hl. }
      assert (m <= 2 ^ 24)%Z as Hmu.
      { apply rne_le. rewrite <- pow2_Z by lia.
        replace 24%Z with (e + 1 - k)%Z by lia. rewrite <- pow2_div.
        apply div_pow2_le. lra. }
      assert (pow2 e <= v) as Hvl.
      { rewrite Hr. replace e with (23 + k)%Z at 1 by lia.
        rewrite pow2_add, (pow2_Z 23) by lia.
        apply Qmult_le_r; [apply pow2_pos|]. rewrite <- Zle_Qle. exact Hml. }
      destruct (Z.eq_dec m (2 ^ 24)%Z) as [Htop|Hlow].
      * assert (v == pow2 (e + 1)) as Hve.
        { rewrite Hr, Htop. rewrite <- pow2_Z by lia. rewrite <- pow2_add.
          replace (24 + k)%Z with (e + 1)%Z by lia. reflexivity. }
        assert (binade v = e + 1)%Z as Hbv.
        { apply binade_unique; [exact Hv|rewrite Hve; apply Qle_refl|].
          rewrite Hve. apply Qpower_lt_compat_l; [lia|reflexivity]. }
        apply (round_b32_representable v (2 ^ 23)); [lra|].
        rewrite (ulp_exp_pos v Hv), Hbv.
        replace (Z.max (e + 1) (-126) - 23)%Z with (k + 1)%Z by lia.
        rewrite Hve. rewrite <- pow2_Z by lia. rewrite <- pow2_add.
        replace (23 + (k + 1))%Z with (e + 1)%Z by lia. reflexivity.
      * assert (binade v = e) as Hbv.
        { apply binade_unique; [exact Hv|exact Hvl|].
          rewrite Hr. replace (e + 1)%Z with (24 + k)%Z by lia.
          rewrite pow2_add, (pow2_Z 24) by lia.
          apply Qmult_lt_r; [apply pow2_pos|]. rewrite <- Zlt_Qlt. lia. }
        apply (round_b32_representable v m); [lra|].
        rewrite (ulp_exp_pos v Hv), Hbv. exact Hr.
Qed.

Lemma round_b32_idem (q : Q) : round_b32 (round_b32 q) == round_b32 q.
Proof.
  destruct (Qlt_le_dec 0 q) as [Hp|Hn]; [apply round_b32_idem_pos; exact Hp|].
  destruct (Qeq_dec q 0) as [H0|H0].
  - rewrite (round_b32_zero q H0). reflexivity.
  - pose proof (round_b32_opp q) as Ho.
    pose proof (round_b32_idem_pos (- q)) as Hi. specialize (Hi ltac:(lra)).
    pose proof (round_b32_opp (round_b32 (- q))) as Hoo.
    pose proof (round_b32_comp (- round_b32 (- q)) (round_b32 q)) as Hc.
    specialize (Hc ltac:(lra)). lra.
Qed.

Lemma round_b32_Rounding : Rounding round_b32.
Proof.
  split; [apply round_b32_mono|apply round_b32_idem|..]; reflexivity.
Qed.


(** ** Lattice points *)

Section Lattice.
Variable rnd : Q -> Q.
Hypothesis HR : Rounding rnd.

Lemma fl_0 (q : Q) : q == 0 -> fl rnd q = 0.
Proof. intros H. rewrite (fl_Qeq rnd q 0 H). apply (rnd_0 rnd HR). Qed.

Lemma fl_1 (q : Q) : q == 1 -> fl rnd q = 1.
Proof. intros H. rewrite (fl_Qeq rnd q 1 H). apply (rnd_1 rnd HR). Qed.

Lemma fl_half (q : Q) : q == 1 # 2 -> fl rnd q = 1 # 2.
Proof. intros H. rewrite (fl_Qeq rnd q (1 # 2) H). apply (rnd_half rnd HR). Qed.

Lemma lit_1 : lit rnd 1 = 1.
Proof. by apply fl_1. Qed.

Lemma lit_half : lit rnd (1 # 2) = 1 # 2.
Proof. by apply fl_half. Qed.

Lemma fmul_0_l (b : Q) : fmul rnd 0 b = 0.
Proof. apply fl_0. ring. Qed.

Lemma fmul_0_r (a : Q) : fmul rnd a 0 = 0.
Proof. apply fl_0. ring. Qed.

Lemma fade_0 : fade rnd 0 = 0.
Proof. unfold fade. by rewrite !fmul_0_l. Qed.

(** The dot product of any gradient with the zero offset is 0. *)
Lemma grad_0 (hash : Z) : grad rnd hash 0 0 0 = 0.
Proof.
  unfold grad.
  assert (fadd rnd 0 0 = 0) as H by (by apply fl_0).
  repeat case_match; exact H.
Qed.

(** With weight 0 the interpolation keeps its first argument. *)
Lemma lerp_0 (b : Q) : lerp rnd 0 b 0 = 0.
Proof. unfold lerp. rewrite fmul_0_r. by apply fl_0. Qed.

Lemma frac_integer (x : Q) (a : Z) :
  x == inject_Z a -> fsub rnd x (floorf x) = 0.
Proof.
  intros H. apply fl_0. unfold floorf.
  rewrite (Qfloor_comp x (inject_Z a) H), Qfloor_Z. lra.
Qed.

Lemma noise_res_lattice (p : list Z) (x y z : Q) (a b c : Z) :
  x == inject_Z a -> y == inject_Z b -> z == inject_Z c ->
  noise_res rnd p x y z = 0.
Proof.
  intros Hx Hy Hz. unfold noise_res.
  rewrite (frac_integer x a Hx), (frac_integer y b Hy),
    (frac_integer z c Hz), fade_0, grad_0.
  by rewrite !lerp_0.
Qed.

Lemma noise_lattice (p : list Z) (x y z : Q) (a b c : Z) :
  x == inject_Z a -> y == inject_Z b -> z == inject_Z c ->
  noise rnd p x y z = 1 # 2.
Proof.
  intros Hx Hy Hz. unfold noise.
  rewrite (noise_res_lattice p x y z a b c) by done.
  rewrite lit_1, lit_half. unfold fadd, fmul.
  rewrite (fl_1 (0 + 1)) by reflexivity.
  by apply fl_half.
Qed.
End Lattice.

(** C3.  At a point whose three coordinates are integers, [noise] returns
    exactly 1/2 for every seed: the gradient dot product with the zero
    offset is 0 for every hash, the interpolated value is 0, and 0 is
    rescaled to 1/2. *)
Theorem noise_at_lattice_point (rnd : Q -> Q) (HR : Rounding rnd)
    (seed : Z) (x y z : Q) (a b c : Z) :
  x == inject_Z a -> y == inject_Z b -> z == inject_Z c ->
  (forall hash, grad rnd hash 0 0 0 = 0) /\
  noise_res rnd (Perlin3D seed) x y z = 0 /\
  noise rnd (Perlin3D seed) x y z = 1 # 2.
Proof.
  intros Hx Hy Hz. split; [apply (grad_0 rnd HR)|]. split.
  - by apply (noise_res_lattice rnd HR _ x y z a b c).
  - by apply (noise_lattice rnd HR _ x y z a b c).
Qed.

Lemma noise_at_lattice_point_witness :
  (forall hash, grad round_b32 hash 0 0 0 = 0) /\
  noise_res round_b32 (Perlin3D 42) 3 (-7) 300 = 0 /\
  noise round_b32 (Perlin3D 42) 3 (-7) 300 = 1 # 2.
Proof.
  apply (noise_at_lattice_point round_b32 round_b32_Rounding 42
           3 (-7) 300 3 (-7) 300); reflexivity.
Defined.

(** ** Loops *)

Lemma for_loop_nonpos {S : Type} (n : Z) (body : Z -> S -> S) (s : S) :
  (n <= 0)%Z -> for_loop n body s = s.
Proof.
  intros Hn. unfold for_loop. by replace (Z.to_nat n) with 0%nat by lia.
Qed.

Lemma for_loop_succ {S : Type} (n : Z) (body : Z -> S -> S) (s : S) :
  (0 <= n)%Z -> for_loop (n + 1) body s = body n (for_loop n body s).
Proof.
  intros Hn. unfold for_loop.
  replace (Z.to_nat (n + 1)) with (Datatypes.S (Z.to_nat n)) by lia.
  rewrite seq_S, fold_left_app. simpl. by rewrite Z2Nat.id.
Qed.

(** Loop invariant: [P i s] holds when the loop is about to run index [i]. *)
Lemma for_loop_ind {S : Type} (P : Z -> S -> Prop) (n : Z)
    (body : Z -> S -> S) (s : S) :
  (0 <= n)%Z -> P 0%Z s ->
  (forall i s, (0 <= i < n)%Z -> P i s -> P (i + 1)%Z (body i s)) ->
  P n (for_loop n body s).
Proof.
  intros Hn H0 Hstep.
  rewrite <- (Z2Nat.id n Hn).
  assert (Z.to_nat n <= Z.to_nat n)%nat as Hle by lia.
  revert Hle. generalize (Z.to_nat n) at 1 3 4 as k.
  induction k as [|k IH]; intros Hk.
  - by rewrite for_loop_nonpos.
  - rewrite Nat2Z.inj_succ, <- Z.add_1_r, for_loop_succ by lia.
    apply Hstep; [lia|]. apply IH. lia.
Qed.

Lemma for_loop_ext {S : Type} (n : Z) (body body' : Z -> S -> S) (s : S) :
  (forall i s, (0 <= i < n)%Z -> body i s = body' i s) ->
  for_loop n body s = for_loop n body' s.
Proof.
  intros Hext. destruct (Z.le_gt_cases 0 n) as [Hn|Hn].
  - apply (for_loop_ind (fun i r => r = for_loop i body' s) n body s);
      [done|by rewrite for_loop_nonpos|].
    intros i r Hi ->. rewrite for_loop_succ by lia. by apply Hext.
  - by rewrite !for_loop_nonpos by lia.
Qed.

(** ** Determinism *)

Lemma lcg_mod (s : Z) : lcg (s mod 2 ^ 32) = lcg s.
Proof.
  unfold lcg.
  rewrite (Z.add_mod (s mod 2 ^ 32 * 1664525)), Z.mul_mod_idemp_l by lia.
  by rewrite <- Z.add_mod by lia.
Qed.

(** The shuffle, hence the table, reads the seed as an [unsigned] value. *)
Lemma shuffle_seed (i : nat) (s s' : Z) (perm : list Z) :
  (s mod 2 ^ 32 = s' mod 2 ^ 32)%Z -> shuffle i s perm = shuffle i s' perm.
Proof.
  intros H. destruct i as [|i]; [done|]. simpl.
  by rewrite <- (lcg_mod s), <- (lcg_mod s'), H.
Qed.

Lemma Perlin3D_seed (seed seed' : Z) :
  (seed mod 2 ^ 32 = seed' mod 2 ^ 32)%Z -> Perlin3D seed = Perlin3D seed'.
Proof. intros H. unfold Perlin3D. by rewrite (shuffle_seed _ _ _ _ H). Qed.

Section BakeCongruence.
Variable rnd : Q -> Q.
Variables (per : list Z) (lacunarity lacunarity' gain gain' : Q).
Hypothesis Hlac : lacunarity == lacunarity'.
Hypothesis Hgain : gain == gain'.

Lemma fbm_body_Qeq (fx fy fz : Q) (st : fbm_state) :
  fbm_body rnd per lacunarity gain fx fy fz st =
  fbm_body rnd per lacunarity' gain' fx fy fz st.
Proof.
  unfold fbm_body. f_equal; by apply fmul_Qeq.
Qed.

Lemma voxel_Qeq (N octaves x y z : Z) :
  voxel rnd per lacunarity gain N octaves x y z =
  voxel rnd per lacunarity' gain' N octaves x y z.
Proof.
  unfold voxel, voxel_round, fbm.
  by rewrite (for_loop_ext octaves _
    (fun _ => fbm_body rnd per lacunarity' gain' _ _ _))
    by (intros i s _; apply fbm_body_Qeq).
Qed.

Lemma bake_loop_Qeq (N octaves : Z) (vox : list Z) :
  bake_loop rnd per lacunarity gain N octaves vox =
  bake_loop rnd per lacunarity' gain' N octaves vox.
Proof.
  unfold bake_loop.
  apply for_loop_ext; intros z v1 _.
  apply for_loop_ext; intros y v2 _.
  apply for_loop_ext; intros x v3 _.
  unfold store. by rewrite voxel_Qeq.
Qed.
End BakeCongruence.



(** ** The range of [noise] *)

(** In exact arithmetic the value stays within [-1/2, 3/2]: a gradient
    value is the sum of two offsets of size at most 1, and the
    interpolation weights lie in [0,1]. *)

Lemma fl_exact (q : Q) : fl exact q == q.
Proof. unfold fl, exact. apply Qred_correct. Qed.

Lemma fadd_exact (a b : Q) : fadd exact a b == a + b.
Proof. apply fl_exact. Qed.
Lemma fsub_exact (a b : Q) : fsub exact a b == a - b.
Proof. apply fl_exact. Qed.
Lemma fmul_exact (a b : Q) : fmul exact a b == a * b.
Proof. apply fl_exact. Qed.
Lemma fdiv_exact (a b : Q) : fdiv exact a b == a / b.
Proof. apply fl_exact. Qed.
Lemma fneg_exact (a : Q) : fneg a == - a.
Proof. apply Qred_correct. Qed.
Lemma lit_exact (q : Q) : lit exact q == q.
Proof. apply fl_exact. Qed.
Lemma of_int_exact (n : Z) : of_int exact n == inject_Z n.
Proof. apply fl_exact. Qed.

Lemma frac_exact_range (x : Q) :
  0 <= fsub exact x (floorf x) /\ fsub exact x (floorf x) < 1.
Proof.
  rewrite fsub_exact. unfold floorf.
  pose proof (Qfloor_le x). pose proof (Qlt_floor x) as H1.
  rewrite inject_Z_plus in H1. change (inject_Z 1) with 1 in H1. lra.
Qed.

Lemma fade_exact (t : Q) :
  fade exact t == t * t * t * (t * (t * 6 - 15) + 10).
Proof.
  unfold fade.
  repeat first [ rewrite fmul_exact | rewrite fadd_exact
               | rewrite fsub_exact | rewrite of_int_exact ].
  reflexivity.
Qed.

Lemma fade_exact_range (t : Q) : 0 <= t <= 1 -> 0 <= fade exact t <= 1.
Proof.
  intros [H0 H1]. rewrite fade_exact.
  assert (0 <= t * t * t) as H3 by (repeat apply Qmult_le_0_compat; lra).
  assert (0 <= (1 - t) * (1 - t) * (1 - t)) as H4
    by (repeat apply Qmult_le_0_compat; lra).
  assert (0 < t * (t * 6 - 15) + 10) as H5 by nra.
  assert (0 < t * (t * 6 + 3) + 1) as H6 by nra.
  assert (0 <= t * t * t * (t * (t * 6 - 15) + 10)) as H7
    by (apply Qmult_le_0_compat; lra).
  assert (0 <= (1 - t) * (1 - t) * (1 - t) * (t * (t * 6 + 3) + 1)) as H8
    by (apply Qmult_le_0_compat; lra).
  split; [exact H7|].
  assert (1 - t * t * t * (t * (t * 6 - 15) + 10)
          == (1 - t) * (1 - t) * (1 - t) * (t * (t * 6 + 3) + 1)) as H9 by ring.
  lra.
Qed.

Lemma grad_exact_range (hash : Z) (x y z : Q) :
  -1 <= x <= 1 -> -1 <= y <= 1 -> -1 <= z <= 1 ->
  -2 <= grad exact hash x y z <= 2.
Proof.
  intros Hx Hy Hz. unfold grad.
  repeat case_match; rewrite fadd_exact, ?fneg_exact; lra.
Qed.

Lemma lerp_exact_range (a b t : Q) :
  -2 <= a <= 2 -> -2 <= b <= 2 -> 0 <= t <= 1 ->
  -2 <= lerp exact a b t <= 2.
Proof.
  intros Ha Hb Ht. unfold lerp.
  rewrite fadd_exact, fmul_exact, fsub_exact.
  assert (a + (b - a) * t == a * (1 - t) + b * t) as -> by ring.
  assert (0 <= (a + 2) * (1 - t)) by (apply Qmult_le_0_compat; lra).
  assert (0 <= (b + 2) * t) by (apply Qmult_le_0_compat; lra).
  assert (0 <= (2 - a) * (1 - t)) by (apply Qmult_le_0_compat; lra).
  assert (0 <= (2 - b) * t) by (apply Qmult_le_0_compat; lra).
  lra.
Qed.

Lemma noise_res_exact_range (p : list Z) (x y z : Q) :
  -2 <= noise_res exact p x y z <= 2.
Proof.
  unfold noise_res.
  pose proof (frac_exact_range x) as Hx.
  pose proof (frac_exact_range y) as Hy.
  pose proof (frac_exact_range z) as Hz.
  set (fx := fsub exact x (floorf x)) in *.
  set (fy := fsub exact y (floorf y)) in *.
  set (fz := fsub exact z (floorf z)) in *.
  assert (forall t, 0 <= t /\ t < 1 ->
            -1 <= fsub exact t (of_int exact 1) <= 1) as Hm.
  { intros t Ht. rewrite fsub_exact, of_int_exact.
    change (inject_Z 1) with 1. lra. }
  pose proof (Hm fx Hx). pose proof (Hm fy Hy). pose proof (Hm fz Hz).
  assert (0 <= fade exact fx <= 1) by (apply fade_exact_range; lra).
  assert (0 <= fade exact fy <= 1) by (apply fade_exact_range; lra).
  assert (0 <= fade exact fz <= 1) by (apply fade_exact_range; lra).
  do 3 (apply lerp_exact_range; [| |assumption]);
    apply grad_exact_range; lra.
Qed.

Lemma noise_exact_range (p : list Z) (x y z : Q) :
  - (1 # 2) <= noise exact p x y z <= 3 # 2.
Proof.
  unfold noise. pose proof (noise_res_exact_range p x y z) as H.
  rewrite fmul_exact, fadd_exact, (lit_exact (1 # 2)), (lit_exact 1). lra.
Qed.

(** The call for seed 42 at (41.5, 211.25, 86.5), step by step: the cell
    is (41, 211, 86), the offsets are (1/2, 1/4, 1/2), the eight hashes
    select gradients that all point into the cell, the corner values are
    1, 1, 5/4, 5/4, 1, 1, 5/4, 5/4 and the interpolated value is
    2101/2048. *)
Lemma noise_trace_seed_42 :
  let p := Perlin3D 42 in
  let c := noise_cell p (83 # 2) (845 # 4) (173 # 2) in
  (cX c, cY c, cZ c) = (41, 211, 86)%Z /\
  (cA c, cB c, cAA c, cAB c, cBA c, cBB c) = (254, 267, 324, 215, 104, 98)%Z /\
  map (fun i => Z.land (at_ p i) 15)
      [cAA c; cBA c; cAB c; cBB c;
       cAA c + 1; cBA c + 1; cAB c + 1; cBB c + 1]%Z
  = [4; 5; 9; 3; 6; 7; 11; 11]%Z /\
  (fade exact (1 # 2), fade exact (1 # 4)) = (1 # 2, 53 # 512) /\
  [grad exact 4 (1 # 2) (1 # 4) (1 # 2);
   grad exact 5 (- (1 # 2)) (1 # 4) (1 # 2);
   grad exact 9 (1 # 2) (- (3 # 4)) (1 # 2);
   grad exact 3 (- (1 # 2)) (- (3 # 4)) (1 # 2);
   grad exact 6 (1 # 2) (1 # 4) (- (1 # 2));
   grad exact 7 (- (1 # 2)) (1 # 4) (- (1 # 2));
   grad exact 11 (1 # 2) (- (3 # 4)) (- (1 # 2));
   grad exact 11 (- (1 # 2)) (- (3 # 4)) (- (1 # 2))]
  = [1; 1; 5 # 4; 5 # 4; 1; 1; 5 # 4; 5 # 4] /\
  noise_res exact p (83 # 2) (845 # 4) (173 # 2) = 2101 # 2048.
Proof.
  intros p c. split; [|split; [|split; [|split; [|split]]]];
    vm_compute; reflexivity.
Qed.

(** C2.  With seed 42 the value at (41.5, 211.25, 86.5) is 4149/4096, above
    1, and the value at (30.25, 10.5, 71.5) is -53/4096, below 0, in exact
    arithmetic and in binary32 alike. *)
Theorem noise_leaves_unit_interval :
  noise exact (Perlin3D 42) (83 # 2) (845 # 4) (173 # 2) = 4149 # 4096 /\
  noise round_b32 (Perlin3D 42) (83 # 2) (845 # 4) (173 # 2) = 4149 # 4096 /\
  noise exact (Perlin3D 42) (121 # 4) (21 # 2) (143 # 2) = -53 # 4096 /\
  noise round_b32 (Perlin3D 42) (121 # 4) (21 # 2) (143 # 2) = -53 # 4096 /\
  1 < 4149 # 4096 /\ -53 # 4096 < 0.
Proof.
  split; [|split; [|split; [|split; [|split]]]]; vm_compute; reflexivity.
Qed.

(** ** Quick controls keep the tuning in range *)


Section Controls.
Variable rnd : Q -> Q.
Hypothesis HR : Rounding rnd.

Lemma fl_mono (a b : Q) : a <= b -> fl rnd a <= fl rnd b.
Proof.
  intros H. unfold fl. apply (rnd_mono rnd HR).
  by rewrite !Qred_correct.
Qed.

Lemma fl_nonneg (q : Q) : 0 <= q -> 0 <= fl rnd q.
Proof.
  intros H. rewrite <- (rnd_0 rnd HR). change 0 with (Qred 0) at 1.
  by apply fl_mono.
Qed.

(** Rounding a float that is already one gives the same value. *)
Lemma fl_lit (q : Q) : fl rnd (lit rnd q) == lit rnd q.
Proof.
  unfold lit, fl at 1.
  transitivity (rnd (rnd (Qred q))); [|apply (rnd_idem rnd HR)].
  apply Qle_antisym; apply (rnd_mono rnd HR);
    rewrite (Qred_correct (rnd (Qred q))); apply Qle_refl.
Qed.

Lemma std_max_lower (a b : Q) : a <= std_max a b.
Proof.
  unfold std_max, fltb. destruct (Qlt_le_dec a b); [by apply Qlt_le_weak|].
  apply Qle_refl.
Qed.

Lemma std_min_upper (a b : Q) : std_min a b <= a.
Proof.
  unfold std_min, fltb. destruct (Qlt_le_dec b a); [by apply Qlt_le_weak|].
  apply Qle_refl.
Qed.

(** [v = std::max(lo, v - d)] keeps [v] in range. *)
Lemma decrease_in_range (lo hi d v : Q) :
  lo <= hi -> 0 <= d -> in_range rnd lo hi v ->
  in_range rnd lo hi (std_max (lit rnd lo) (fsub rnd v (lit rnd d))).
Proof.
  intros Hlh Hd [Hl Hu]. split; [apply std_max_lower|].
  unfold std_max, fltb. destruct (Qlt_le_dec _ _) as [_|_].
  - rewrite <- (fl_lit hi). apply fl_mono.
    pose proof (fl_nonneg d Hd) as Hd'. fold (lit rnd d) in Hd'. lra.
  - by apply fl_mono.
Qed.

(** [v = std::min(hi, v + d)] keeps [v] in range. *)
Lemma increase_in_range (lo hi d v : Q) :
  lo <= hi -> 0 <= d -> in_range rnd lo hi v ->
  in_range rnd lo hi (std_min (lit rnd hi) (fadd rnd v (lit rnd d))).
Proof.
  intros Hlh Hd [Hl Hu]. split; [|apply std_min_upper].
  unfold std_min, fltb. destruct (Qlt_le_dec _ _) as [_|_].
  - rewrite <- (fl_lit lo). apply fl_mono.
    pose proof (fl_nonneg d Hd) as Hd'. fold (lit rnd d) in Hd'. lra.
  - by apply fl_mono.
Qed.

Lemma on_key_preserves (P : Tuning -> Prop) (pressed : Key -> bool)
    (k : Key) (update : Tuning -> Tuning) (t : Tuning) :
  (forall t, P t -> P (update t)) -> P t -> P (on_key pressed k update t).
Proof. intros Hu Ht. unfold on_key. destruct (pressed k); auto. Qed.

Lemma quick_controls_in_range (pressed : Key -> bool) (t : Tuning) :
  tuning_in_range rnd t ->
  tuning_in_range rnd (quick_controls rnd pressed t).
Proof.
  intros Ht. unfold quick_controls. cbv zeta.
  do 10 (apply on_key_preserves;
         [intros t0 (H1 & H2 & H3 & H4 & H5);
          unfold tuning_in_range; simpl;
          split; [|split; [|split; [|split]]];
          first [ assumption
                | apply decrease_in_range; [lra|lra|assumption]
                | apply increase_in_range; [lra|lra|assumption] ]|]).
  exact Ht.
Qed.

Lemma initial_tuning_in_range : tuning_in_range rnd (initial_tuning rnd).
Proof.
  unfold tuning_in_range, in_range, initial_tuning; simpl.
  repeat split; apply fl_mono; lra.
Qed.
End Controls.

(** C8.  Every iteration of the key handling keeps the five tunable values
    within their ranges, for every sequence of key states, when they start
    within range; the initial values of [main] are within range. *)
Theorem controls_stay_in_range (rnd : Q -> Q) (HR : Rounding rnd)
    (frames : list (Key -> bool)) (t : Tuning) :
  tuning_in_range rnd t ->
  tuning_in_range rnd (run_controls rnd frames t) /\
  tuning_in_range rnd (run_controls rnd frames (initial_tuning rnd)).
Proof.
  assert (forall t, tuning_in_range rnd t ->
                    tuning_in_range rnd (run_controls rnd frames t)) as H.
  { induction frames as [|pressed frames IH]; intros t0 Ht0; [done|].
    simpl. apply IH. by apply quick_controls_in_range. }
  intros Ht. split; [by apply H|].
  apply H. by apply initial_tuning_in_range.
Qed.

Lemma controls_stay_in_range_witness :
  let frames := [(fun _ : Key => true);
                 (fun k => match k with KEY_S | KEY_1 => true | _ => false end)] in
  let t := {| fireScale := 6; smokeScale := 1 # 2; fireSpeed := 2;
              smokeSpeed := lit round_b32 (2 # 100);
              fireHeight := lit round_b32 (3 # 10) |} in
  tuning_in_range round_b32 (run_controls round_b32 frames t) /\
  tuning_in_range round_b32
    (run_controls round_b32 frames (initial_tuning round_b32)).
Proof.
  intros frames t.
  apply (controls_stay_in_range round_b32 round_b32_Rounding frames t).
  repeat split; by vm_compute.
Defined.

(** ** The bake loop *)


Lemma cell_index_inj (N x y z x' y' z' : Z) :
  (0 <= x < N)%Z -> (0 <= y < N)%Z -> (0 <= x' < N)%Z -> (0 <= y' < N)%Z ->
  cell_index N x y z = cell_index N x' y' z' -> x = x' /\ y = y' /\ z = z'.
Proof.
  unfold cell_index. intros Hx Hy Hx' Hy' H.
  assert ((z * N + y) = (z' * N + y') /\ x = x')%Z as [H1 ->].
  { apply (Z.div_mod_unique N); lia. }
  assert (z = z' /\ y = y')%Z as [-> ->]; [|done].
  apply (Z.div_mod_unique N); lia.
Qed.

Lemma cell_index_bound (N x y z : Z) :
  (0 <= x < N)%Z -> (0 <= y < N)%Z -> (0 <= z < N)%Z ->
  (0 <= cell_index N x y z < N * N * N)%Z.
Proof. unfold cell_index. intros Hx Hy Hz. nia. Qed.

Section Grid.
Variable rnd : Q -> Q.
Variables (per : list Z) (lacunarity gain : Q) (N octaves : Z).

Local Abbreviation written := (written_below rnd per lacunarity gain N octaves).
Local Abbreviation store_at := (store rnd per lacunarity gain N octaves).
Local Abbreviation vox_of := (voxel rnd per lacunarity gain N octaves).



Lemma store_written (x y z : Z) (vox : list Z) :
  (0 <= x < N)%Z -> (0 <= y < N)%Z -> (0 <= z < N)%Z ->
  written (cell_index N x y z) vox ->
  written (cell_index N x y z + 1) (store_at x y z vox).
Proof.
  intros Hx Hy Hz [Hlen Hw]. unfold store. fold (cell_index N x y z).
  pose proof (cell_index_bound N x y z Hx Hy Hz) as Hb.
  split; [by rewrite length_insert|].
  intros x' y' z' Hx' Hy' Hz' Hlt.
  pose proof (cell_index_bound N x' y' z' Hx' Hy' Hz') as Hb'.
  destruct (Z.eq_dec (cell_index N x' y' z') (cell_index N x y z)) as [He|Hne].
  - destruct (cell_index_inj N x' y' z' x y z) as (-> & -> & ->); try done.
    rewrite list_lookup_insert_eq by lia. done.
  - rewrite list_lookup_insert_ne by lia. apply Hw; try done. lia.
Qed.

Lemma row_written (y z : Z) (vox : list Z) :
  (0 <= y < N)%Z -> (0 <= z < N)%Z ->
  written (cell_index N 0 y z) vox ->
  written (cell_index N 0 (y + 1) z)
    (for_loop N (fun x vox => store_at x y z vox) vox).
Proof.
  intros Hy Hz Hw.
  replace (cell_index N 0 (y + 1) z) with (cell_index N N y z)
    by (unfold cell_index; lia).
  apply (for_loop_ind (fun i v => written (cell_index N i y z) v));
    [lia|done|].
  intros i v Hi Hv.
  replace (cell_index N (i + 1) y z) with (cell_index N i y z + 1)%Z
    by (unfold cell_index; lia).
  by apply store_written.
Qed.

Lemma plane_written (z : Z) (vox : list Z) :
  (0 <= z < N)%Z ->
  written (cell_index N 0 0 z) vox ->
  written (cell_index N 0 0 (z + 1))
    (for_loop N (fun y vox =>
       for_loop N (fun x vox => store_at x y z vox) vox) vox).
Proof.
  intros Hz Hw.
  replace (cell_index N 0 0 (z + 1)) with (cell_index N 0 N z)
    by (unfold cell_index; lia).
  apply (for_loop_ind (fun i v => written (cell_index N 0 i z) v));
    [lia|done|].
  intros i v Hi Hv. by apply row_written.
Qed.

Lemma bake_loop_written (vox : list Z) :
  (0 < N)%Z -> length vox = Z.to_nat (N * N * N) ->
  written (N * N * N) (bake_loop rnd per lacunarity gain N octaves vox).
Proof.
  intros HN Hlen. unfold bake_loop.
  replace (N * N * N)%Z with (cell_index N 0 0 N) at 1
    by (unfold cell_index; lia).
  apply (for_loop_ind (fun i v => written (cell_index N 0 0 i) v));
    [lia| |].
  - split; [done|]. intros x y z Hx Hy Hz Hlt.
    pose proof (cell_index_bound N x y z Hx Hy Hz). unfold cell_index in *. lia.
  - intros i v Hi Hv. by apply plane_written.
Qed.
End Grid.

(** Every cell of the grid returned by [make3DNoiseTex] holds its byte. *)
Lemma make3DNoiseTex_cell (rnd : Q -> Q) (N octaves : Z) (lacunarity gain : Q)
    (seed x y z : Z) :
  (0 <= x < N)%Z -> (0 <= y < N)%Z -> (0 <= z < N)%Z ->
  make3DNoiseTex rnd N octaves lacunarity gain seed
    !! Z.to_nat (cell_index N x y z)
  = Some (voxel rnd (Perlin3D seed) lacunarity gain N octaves x y z).
Proof.
  intros Hx Hy Hz. unfold make3DNoiseTex.
  destruct (bake_loop_written rnd (Perlin3D seed) lacunarity gain N octaves
              (replicate (Z.to_nat (N * N * N)) 0%Z)) as [_ H];
    [lia|by rewrite length_replicate|].
  apply H; try done. by apply cell_index_bound.
Qed.


Lemma fltb_Qeq (a a' b b' : Q) : a == a' -> b == b' -> fltb a b = fltb a' b'.
Proof.
  intros Ha Hb. unfold fltb.
  destruct (Qlt_le_dec a b), (Qlt_le_dec a' b'); try done; lra.
Qed.

Lemma clamp01_Qeq (v v' : Q) : v == v' -> clamp01 v == clamp01 v'.
Proof.
  intros H. unfold clamp01.
  rewrite (fltb_Qeq v v' 0 0), (fltb_Qeq 1 1 v v') by done.
  by repeat case_match.
Qed.

Lemma clamp01_range (v : Q) : 0 <= clamp01 v <= 1.
Proof.
  unfold clamp01, fltb.
  destruct (Qlt_le_dec v 0); [lra|]. destruct (Qlt_le_dec 1 v); lra.
Qed.

Lemma std_round_Qeq (q q' : Q) : q == q' -> std_round q = std_round q'.
Proof.
  intros H. unfold std_round. rewrite (fltb_Qeq q q' 0 0) by done.
  case_match; by rewrite H.
Qed.

Lemma std_round_range (q : Q) : 0 <= q <= 255 -> (0 <= std_round q <= 255)%Z.
Proof.
  intros [Hl Hu]. unfold std_round, fltb.
  destruct (Qlt_le_dec q 0); [lra|]. split.
  - change 0%Z with (Qfloor (1 # 2)). apply Qfloor_resp_le. lra.
  - change 255%Z with (Qfloor (255 + (1 # 2))). apply Qfloor_resp_le. lra.
Qed.

(** The rounded value is a byte, whatever the rounding of the platform. *)
Lemma voxel_round_range (rnd : Q -> Q) (HR : Rounding rnd) (per : list Z)
    (lacunarity gain : Q) (N octaves x y z : Z) :
  (0 <= voxel_round rnd per lacunarity gain N octaves x y z <= 255)%Z.
Proof.
  unfold voxel_round. apply std_round_range.
  match goal with
  | |- context [clamp01 ?v] =>
      pose proof (clamp01_range v) as Hc; set (c := clamp01 v) in *
  end.
  assert (lit rnd 255 = 255) as ->
    by (unfold lit, fl; change (Qred 255) with 255; apply (rnd_255 rnd HR)).
  unfold fmul. split.
  - apply (fl_nonneg rnd HR). nra.
  - rewrite <- (rnd_255 rnd HR) at 2. change 255 with (Qred 255) at 2.
    apply (fl_mono rnd HR). nra.
Qed.

Lemma voxel_no_wrap (rnd : Q -> Q) (HR : Rounding rnd) (per : list Z)
    (lacunarity gain : Q) (N octaves x y z : Z) :
  voxel rnd per lacunarity gain N octaves x y z =
  voxel_round rnd per lacunarity gain N octaves x y z.
Proof.
  unfold voxel, to_uchar. apply Z.mod_small.
  pose proof (voxel_round_range rnd HR per lacunarity gain N octaves x y z).
  lia.
Qed.

(** *** Exact arithmetic *)

Section Formula.
Variables (per : list Z) (lacunarity gain : Q).
Variables (fx fy fz fx' fy' fz' : Q).
Hypothesis Hx : fx == fx'.
Hypothesis Hy : fy == fy'.
Hypothesis Hz : fz == fz'.

Local Abbreviation inv :=
  (fbm_invariant lacunarity gain (fbm_sum per lacunarity gain fx' fy' fz')).



Lemma fbm_body_invariant (i : Z) (st : fbm_state) :
  (0 <= i)%Z -> inv i st ->
  inv (i + 1) (fbm_body exact per lacunarity gain fx fy fz st).
Proof.
  intros Hi (Hf & Ha & Hq). unfold fbm_invariant.
  replace (Z.to_nat (i + 1)) with (S (Z.to_nat i)) by lia.
  unfold fbm_body; simpl. split; [|split].
  - rewrite fadd_exact, fmul_exact, Hf, Ha.
    apply Qplus_comp; [reflexivity|]. apply Qmult_comp; [reflexivity|].
    assert (forall c c' : Q, c == c' ->
              fmul exact (fmul exact c (fbm_freq st)) (lit exact 8) ==
              pow lacunarity (Z.to_nat i) * 8 * c') as Harg.
    { intros c c' Hc. rewrite !fmul_exact, lit_exact, Hq, Hc. ring. }
    by rewrite (noise_Qeq exact per _ _ _ _ _ _
                  (Harg _ _ Hx) (Harg _ _ Hy) (Harg _ _ Hz)).
  - by rewrite fmul_exact, Ha.
  - by rewrite fmul_exact, Hq.
Qed.

Lemma fbm_is_sum (octaves : Z) :
  fbm exact per lacunarity gain octaves fx fy fz ==
  fbm_sum per lacunarity gain fx' fy' fz' (Z.to_nat octaves).
Proof.
  unfold fbm. destruct (Z.le_gt_cases 0 octaves) as [Ho|Ho].
  - apply (for_loop_ind inv); [done| |].
    + repeat split; simpl; apply lit_exact.
    + intros i st Hi. apply fbm_body_invariant. lia.
  - rewrite for_loop_nonpos by lia.
    replace (Z.to_nat octaves) with 0%nat by lia. simpl. apply lit_exact.
Qed.
End Formula.

Lemma voxel_round_formula (N octaves : Z) (lacunarity gain : Q)
    (seed x y z : Z) :
  voxel_round exact (Perlin3D seed) lacunarity gain N octaves x y z =
  bake_formula N octaves lacunarity gain seed x y z.
Proof.
  unfold voxel_round, bake_formula. apply std_round_Qeq.
  assert (forall c : Z,
            fmul exact (of_int exact c) (fdiv exact (lit exact 1) (of_int exact N))
            == inject_Z c / inject_Z N) as Hc.
  { intros c. rewrite fmul_exact, fdiv_exact, lit_exact, !of_int_exact.
    unfold Qdiv. ring. }
  rewrite fmul_exact, (lit_exact 255), Qmult_comm.
  apply Qmult_comp; [reflexivity|]. apply clamp01_Qeq.
  rewrite fdiv_exact, (lit_exact (3 # 2)).
  by rewrite (fbm_is_sum _ _ _ _ _ _ _ _ _ (Hc x) (Hc y) (Hc z)).
Qed.



(** ** The smoke shader *)

Section Smoke.
Import GLSL.
Local Open Scope R_scope.

Lemma clamp_range (x : R) : 0 <= clamp x 0 1 <= 1.
Proof.
  unfold clamp, Rmin, Rmax.
  repeat (destruct (Rle_dec _ _)); lra.
Qed.

Lemma clamp_mono (x y : R) : x <= y -> clamp x 0 1 <= clamp y 0 1.
Proof.
  intros H. unfold clamp, Rmin, Rmax.
  repeat (destruct (Rle_dec _ _)); lra.
Qed.

Lemma smoothstep_01 (x : R) : smoothstep 0.0 1.0 x = clamp x 0 1 * clamp x 0 1 * (3 - 2 * clamp x 0 1).
Proof.
  unfold smoothstep. replace ((x - 0.0) / (1.0 - 0.0)) with x by lra.
  reflexivity.
Qed.

Lemma smoothstep_01_range (x : R) : 0 <= smoothstep 0.0 1.0 x <= 1.
Proof.
  rewrite smoothstep_01. pose proof (clamp_range x) as H.
  revert H. generalize (clamp x 0 1) as t. intros t H.
  assert (0 <= t * t) by nra.
  assert (0 <= (1 - t) * (1 - t) * (1 + 2 * t))
    by (apply Rmult_le_pos; nra).
  split; nra.
Qed.

Lemma smoothstep_01_mono (x y : R) :
  x <= y -> smoothstep 0.0 1.0 x <= smoothstep 0.0 1.0 y.
Proof.
  intros H. rewrite !smoothstep_01.
  pose proof (clamp_range x). pose proof (clamp_range y).
  pose proof (clamp_mono x y H).
  revert H0 H1 H2. generalize (clamp x 0 1) as a, (clamp y 0 1) as b.
  intros a b Ha Hb Hab.
  assert (0 <= a * (3 - 2 * a - b)) by (apply Rmult_le_pos; lra).
  assert (0 <= b * (3 - 2 * b - a)) by (apply Rmult_le_pos; lra).
  assert (0 <= (b - a) * (a * (3 - 2 * a - b) + b * (3 - 2 * b - a)))
    by (apply Rmult_le_pos; lra).
  nra.
Qed.

Lemma smoothstep_01_bottom (x : R) : x <= 0 -> smoothstep 0.0 1.0 x = 0.
Proof.
  intros H. rewrite smoothstep_01.
  assert (clamp x 0 1 = 0) as ->; [|lra].
  unfold clamp, Rmin, Rmax. repeat (destruct (Rle_dec _ _)); lra.
Qed.

Lemma smoothstep_01_top (x : R) : 1 <= x -> smoothstep 0.0 1.0 x = 1.
Proof.
  intros H. rewrite smoothstep_01.
  assert (clamp x 0 1 = 1) as ->; [|lra].
  unfold clamp, Rmin, Rmax. repeat (destruct (Rle_dec _ _)); lra.
Qed.


Lemma density_of_eq (uv_y n : R) :
  FRAG_SMOKE.density_of uv_y n = clamp (n * 1.2 - 0.25 + fade_term uv_y) 0 1.
Proof.
  unfold FRAG_SMOKE.density_of, fade_term.
  by replace 0.0 with 0 by lra; replace 1.0 with 1 by lra.
Qed.

Lemma fade_term_range (uv_y : R) : 0 <= fade_term uv_y <= 0.15.
Proof.
  unfold fade_term, FRAG_SMOKE.fadeUp.
  pose proof (smoothstep_01_range uv_y). lra.
Qed.

Lemma fade_term_antitone (v1 v2 : R) :
  v1 <= v2 -> fade_term v2 <= fade_term v1.
Proof.
  intros H. unfold fade_term, FRAG_SMOKE.fadeUp.
  pose proof (smoothstep_01_mono v1 v2 H). lra.
Qed.

Lemma density_at_bottom : FRAG_SMOKE.density_of 0 0.5 = 0.5.
Proof.
  rewrite density_of_eq. unfold fade_term, FRAG_SMOKE.fadeUp.
  rewrite smoothstep_01_bottom by lra.
  unfold clamp, Rmin, Rmax. repeat (destruct (Rle_dec _ _)); lra.
Qed.

Lemma density_at_top : FRAG_SMOKE.density_of 1 0.5 = 0.35.
Proof.
  rewrite density_of_eq. unfold fade_term, FRAG_SMOKE.fadeUp.
  rewrite smoothstep_01_top by lra.
  unfold clamp, Rmin, Rmax. repeat (destruct (Rle_dec _ _)); lra.
Qed.




(** *** The sampling coordinate *)

Lemma wave_value : FRAG_SMOKE.wave (5 * PI / 4) 0 = 0.05.
Proof.
  unfold FRAG_SMOKE.wave.
  replace (0 * 8.0 + 5 * PI / 4 * 0.8) with PI by lra.
  replace (0 * 3.5 + 5 * PI / 4 * 0.4) with (PI / 2) by lra.
  rewrite sin_PI, sin_PI2. lra.
Qed.


End Smoke.

(** ** Compositing order *)

Section Compositing.
Import GLSL Blend.
Local Open Scope R_scope.

(** On the red channel the two orders differ by
    fire * fire alpha * smoke alpha. *)
Lemma order_difference_red (fire smoke dst : vec4) :
  c_r (smoke_then_fire fire smoke dst) - c_r (fire_then_smoke fire smoke dst)
  = c_r fire * c_a fire * c_a smoke.
Proof.
  unfold smoke_then_fire, fire_then_smoke, draw_fire, draw_smoke,
    glBlendFunc; simpl. ring.
Qed.

(** The two draws compute the blend equations of the specification. *)
Lemma draw_fire_red (fire dst : vec4) :
  c_r (draw_fire fire dst) = c_r dst + c_r fire * c_a fire.
Proof. unfold draw_fire, glBlendFunc; simpl. ring. Qed.

Lemma draw_smoke_red (smoke dst : vec4) :
  c_r (draw_smoke smoke dst) =
  c_r smoke * c_a smoke + c_r dst * (1 - c_a smoke).
Proof. unfold draw_smoke, glBlendFunc; simpl. ring. Qed.

(** C9.  There are a fire fragment, a smoke fragment and a destination
    colour for which fire-then-smoke and smoke-then-fire leave different
    colours: opaque red fire and opaque black smoke over the clear
    colour give red 0 in the order of the render loop and red 1 in the
    reverse order. *)
Theorem compositing_order_matters :
  exists fire smoke dst : vec4,
    (forall src d, c_r (draw_fire src d) = c_r d + c_r src * c_a src) /\
    (forall src d, c_r (draw_smoke src d) =
                   c_r src * c_a src + c_r d * (1 - c_a src)) /\
    c_r (fire_then_smoke fire smoke dst) = 0 /\
    c_r (smoke_then_fire fire smoke dst) = 1 /\
    fire_then_smoke fire smoke dst <> smoke_then_fire fire smoke dst.
Proof.
  exists (mkvec4 1 0 0 1), (mkvec4 0 0 0 1), clear_color.
  split; [apply draw_fire_red|]. split; [apply draw_smoke_red|].
  assert (c_r (fire_then_smoke (mkvec4 1 0 0 1) (mkvec4 0 0 0 1) clear_color) = 0)
    as H0 by (unfold fire_then_smoke, draw_fire, draw_smoke, glBlendFunc; simpl; lra).
  assert (c_r (smoke_then_fire (mkvec4 1 0 0 1) (mkvec4 0 0 0 1) clear_color) = 1)
    as H1 by (unfold smoke_then_fire, draw_fire, draw_smoke, glBlendFunc; simpl; lra).
  repeat split; try done.
  intros H. rewrite H in H0. lra.
Qed.
End Compositing.
